(** * ShaunShi (JARVIS live assistant): memory store, detection-token parser
      and live-session manager

    A shallow embedding of [utils/memoryService.ts] and of the session logic
    of [App.tsx], together with the properties of the design document that
    concern them.

    Conventions of the embedding.
    - TypeScript types are erased at run time and tool-call arguments arrive
      as [any]; a value that is either a string or JavaScript's [undefined]
      is a [jsval].
    - JavaScript strings are Rocq strings holding the UTF-8 bytes of the text.
    - Audio times ([AudioContext.currentTime], [AudioBuffer.duration]) are
      whole numbers of sample frames of the 24 kHz output context, in [Z];
      the rounding of the IEEE doubles that carry them is not modelled.
    - [Date.now()] and the captured React state are inputs of the handlers.
    - [Math.random()] identifiers (log ids, overlay ids) only serve as React
      keys and are left out of the records. *)

From Stdlib Require Import ZArith List String Ascii Bool Lia.
Import ListNotations.
Local Open Scope string_scope.
Local Open Scope Z_scope.
Local Open Scope list_scope.

(* ------------------------------------------------------------------ *)
(** ** JavaScript values reaching the code as [any] *)

Inductive jsval : Type :=
| JUndefined
| JStr (s : string).

Definition jsval_eqb (a b : jsval) : bool :=
  match a, b with
  | JUndefined, JUndefined => true
  | JStr s, JStr t => String.eqb s t
  | _, _ => false
  end.

(** A template literal [`${v}`]. *)
Definition template (v : jsval) : string :=
  match v with
  | JUndefined => "undefined"
  | JStr s => s
  end.

(** [Array.prototype.join]. *)
Fixpoint join (sep : string) (l : list string) : string :=
  match l with
  | [] => ""
  | [x] => x
  | x :: rest => (x ++ sep ++ join sep rest)%string
  end.

Definition newline : string := String (ascii_of_nat 10) "".

(* ------------------------------------------------------------------ *)
(** ** types.ts *)

Record MemoryItem : Type := mkMemoryItem {
  key : jsval;
  value : jsval;
  addedAt : Z
}.

(* ------------------------------------------------------------------ *)
(** ** utils/memoryService.ts *)

Module MemoryService.

(** The text kept under [MEMORY_KEY]: either what [JSON.stringify] wrote
    for an array of items ([JSON.parse] gives the array back), or any
    other text, which is empty or makes [JSON.parse] throw. *)
Inductive StoredText : Type :=
| Json (items : list MemoryItem)
| Garbage.

(** [localStorage.getItem(MEMORY_KEY)]; [None] is [null]. *)
Definition Storage : Type := option StoredText.

Definition load (st : Storage) : list MemoryItem :=
  match st with
  | Some (Json items) => items
  | Some Garbage => []
  | None => []
  end.

Definition save (k v : jsval) (now : Z) (st : Storage)
  : MemoryItem * Storage :=
  let memories := load st in
  let newItem := mkMemoryItem k v now in
  let filtered := filter (fun m => negb (jsval_eqb (key m) k)) memories in
  let filtered := filtered ++ [newItem] in
  (newItem, Some (Json filtered)).

Definition bullet (m : MemoryItem) : string :=
  ("- [记忆-" ++ template (key m) ++ "]: " ++ template (value m))%string.

Definition getContextString (st : Storage) : string :=
  let memories := load st in
  if Nat.eqb (List.length memories) 0 then "暂无历史记忆。"
  else join newline (map bullet memories).

Definition clear (st : Storage) : Storage := None.

(** A run of [save] calls, each with its own reading of [Date.now()]. *)
Definition saves (ops : list (jsval * jsval * Z)) (st : Storage) : Storage :=
  fold_left (fun acc '(k, v, t) => snd (save k v t acc)) ops st.

(** The items of a run of saves that no later save of the same key
    overwrites, in the order of the run. *)
Fixpoint last_writes (ops : list (jsval * jsval * Z)) : list MemoryItem :=
  match ops with
  | [] => []
  | (k, v, t) :: rest =>
      if existsb (fun '(k', _, _) => jsval_eqb k' k) rest
      then last_writes rest
      else mkMemoryItem k v t :: last_writes rest
  end.

Definition with_key (k : jsval) (l : list MemoryItem) : list MemoryItem :=
  filter (fun m => jsval_eqb (key m) k) l.

(** At most one fact per key. *)
Definition unique_keys (st : Storage) : Prop :=
  NoDup (map key (load st)).

(** An item is overwritten by a run of saves when one of them writes its
    key. *)
Definition overwritten (ops : list (jsval * jsval * Z)) (m : MemoryItem)
  : bool :=
  existsb (fun '(k', _, _) => jsval_eqb k' (key m)) ops.

End MemoryService.

(* ------------------------------------------------------------------ *)
(** ** The detection-token regular expression of [parseARObjects]

    [/\[OBJECT:(.*?):(\d+),(\d+),(\d+),(\d+)\]/g], run by the loop
    [while ((match = regex.exec(text)) !== null)]. *)

Module Regex.

(** [\d]: an ASCII digit. *)
Definition is_digit (c : ascii) : bool :=
  let n := nat_of_ascii c in
  (Nat.leb 48 n && Nat.leb n 57)%bool.

(** The text starts with a line terminator, which [.] refuses: LF, CR, or
    U+2028 / U+2029 (bytes E2 80 A8 and E2 80 A9). *)
Definition line_terminator_here (s : string) : bool :=
  match s with
  | String c rest =>
      let n := nat_of_ascii c in
      if (Nat.eqb n 10 || Nat.eqb n 13)%bool then true
      else
        match rest with
        | String c2 (String c3 _) =>
            (Nat.eqb n 226 && Nat.eqb (nat_of_ascii c2) 128 &&
             (Nat.eqb (nat_of_ascii c3) 168 || Nat.eqb (nat_of_ascii c3) 169))%bool
        | _ => false
        end
  | EmptyString => false
  end.

(** A literal at the head of the text; the rest of the text on success. *)
Fixpoint literal (lit s : string) : option string :=
  match lit, s with
  | EmptyString, _ => Some s
  | String a lit', String b s' =>
      if Ascii.eqb a b then literal lit' s' else None
  | String _ _, EmptyString => None
  end.

(** The longest run of digits at the head of the text, and the rest. *)
Fixpoint span_digits (s : string) : string * string :=
  match s with
  | String c rest =>
      if is_digit c
      then let '(ds, r) := span_digits rest in (String c ds, r)
      else (EmptyString, s)
  | EmptyString => (EmptyString, EmptyString)
  end.

(** [(\d+)] followed by the literal [sep].  The group is greedy; giving
    digits back cannot help, since [sep] never starts with a digit. *)
Definition digits_then (sep s : string) : option (string * string) :=
  match span_digits s with
  | (EmptyString, _) => None
  | (ds, r) =>
      match literal sep r with
      | Some r' => Some (ds, r')
      | None => None
      end
  end.

(** [:(\d+),(\d+),(\d+),(\d+)\]] at the head of the text. *)
Definition coordinates (s : string)
  : option (string * string * string * string * string) :=
  match literal ":" s with
  | None => None
  | Some s1 =>
      match digits_then "," s1 with
      | None => None
      | Some (g2, s2) =>
          match digits_then "," s2 with
          | None => None
          | Some (g3, s3) =>
              match digits_then "," s3 with
              | None => None
              | Some (g4, s4) =>
                  match digits_then "]" s4 with
                  | None => None
                  | Some (g5, s5) => Some (g2, g3, g4, g5, s5)
                  end
              end
          end
      end
  end.

(** A successful [exec]: the five capture groups. *)
Record Match : Type := mkMatch {
  group1 : string;
  group2 : string;
  group3 : string;
  group4 : string;
  group5 : string
}.

(** [(.*?)] and what follows it: the lazy group takes one more character
    only when the coordinates do not match where it stands. *)
Fixpoint lazy_label (s : string) : option (Match * string) :=
  match coordinates s with
  | Some (g2, g3, g4, g5, rest) => Some (mkMatch "" g2 g3 g4 g5, rest)
  | None =>
      match s with
      | EmptyString => None
      | String c s' =>
          if line_terminator_here s then None
          else
            match lazy_label s' with
            | Some (m, rest) =>
                Some (mkMatch (String c (group1 m)) (group2 m) (group3 m)
                              (group4 m) (group5 m), rest)
            | None => None
            end
      end
  end.

(** The whole pattern anchored at the head of the text. *)
Definition match_here (s : string) : option (Match * string) :=
  match literal "[OBJECT:" s with
  | Some s' => lazy_label s'
  | None => None
  end.

(** [regex.exec] on the text that starts at [lastIndex]: the leftmost
    match, and the text from the new [lastIndex] on. *)
Fixpoint exec (s : string) : option (Match * string) :=
  match match_here s with
  | Some r => Some r
  | None =>
      match s with
      | EmptyString => None
      | String _ s' => exec s'
      end
  end.

(** The [while] loop over [exec]; every match consumes at least one
    character, so [S (length text)] rounds are enough. *)
Fixpoint exec_loop (fuel : nat) (s : string) : list Match :=
  match fuel with
  | O => []
  | S fuel' =>
      match exec s with
      | Some (m, rest) => m :: exec_loop fuel' rest
      | None => []
      end
  end.

Definition exec_all (text : string) : list Match :=
  exec_loop (S (String.length text)) text.

(** [parseInt] on a string of decimal digits. *)
Definition digit_value (c : ascii) : Z := Z.of_nat (nat_of_ascii c) - 48.

Fixpoint parseInt_from (acc : Z) (s : string) : Z :=
  match s with
  | EmptyString => acc
  | String c rest => parseInt_from (10 * acc + digit_value c) rest
  end.

Definition parseInt (s : string) : Z := parseInt_from 0 s.

(** The token grammar, written out: what a match is made of. *)

Fixpoint digits_only (s : string) : bool :=
  match s with
  | EmptyString => true
  | String c rest => (is_digit c && digits_only rest)%bool
  end.

(** One or more digits. *)
Definition number (s : string) : bool :=
  match s with
  | EmptyString => false
  | _ => digits_only s
  end.

(** Every character is one that [.] accepts. *)
Fixpoint dots_only (s : string) : bool :=
  match s with
  | EmptyString => true
  | String _ rest => (negb (line_terminator_here s) && dots_only rest)%bool
  end.

(** The coordinates of a match as they stand in the text, followed by
    [rest]. *)
Definition coords_text (m : Match) (rest : string) : string :=
  (":" ++ group2 m ++ "," ++ group3 m ++ "," ++ group4 m ++ ","
     ++ group5 m ++ "]" ++ rest)%string.

(** The same coordinates under another label. *)
Definition relabel (lbl : string) (m : Match) : Match :=
  mkMatch lbl (group2 m) (group3 m) (group4 m) (group5 m).

Definition token (m : Match) : string :=
  ("[OBJECT:" ++ group1 m ++ coords_text m "")%string.

Definition well_formed (m : Match) : bool :=
  (dots_only (group1 m) && number (group2 m) && number (group3 m)
     && number (group4 m) && number (group5 m))%bool.

(** A token of the grammar stands at the head of the text. *)
Definition starts_with_token (s : string) : Prop :=
  exists m post, well_formed m = true /\ s = (token m ++ post)%string.

(** No token of the grammar starts anywhere in the text. *)
Definition token_free (txt : string) : Prop :=
  forall pre post, txt = (pre ++ post)%string -> ~ starts_with_token post.

(** The matches of a text, left to right and without overlap: the next
    match is the token that starts first, with the shortest label that
    makes a token there, and the search goes on after it. *)
Inductive scan : string -> list Match -> Prop :=
| scan_done txt :
    token_free txt -> scan txt []
| scan_next pre m rest ms :
    well_formed m = true ->
    (forall pre1 pre2, pre = (pre1 ++ pre2)%string -> pre2 <> EmptyString ->
                       ~ starts_with_token (pre2 ++ token m ++ rest)%string) ->
    (forall m' post', well_formed m' = true ->
                      (token m ++ rest)%string = (token m' ++ post')%string ->
                      (String.length (group1 m) <= String.length (group1 m'))%nat) ->
    scan rest ms ->
    scan (pre ++ token m ++ rest)%string (m :: ms).

End Regex.

(* ------------------------------------------------------------------ *)
(** ** types.ts, continued *)

Inductive LogSource : Type := SYSTEM | JARVIS | USER | TOOL.

Inductive LogType : Type := info | success | warning | error.

(** A log line; its random [id] and its rendered clock time are display
    data and are left out. *)
Record LogEntry : Type := mkLogEntry {
  source : LogSource;
  message : string;
  type : LogType
}.

Record AROverlayData : Type := mkAROverlayData {
  label : string;
  box : Z * Z * Z * Z;     (* [ymin, xmin, ymax, xmax] *)
  color : string;
  timestamp : Z
}.

(* ------------------------------------------------------------------ *)
(** ** App.tsx: the session manager *)

Module App.

(** *** What the service sends *)

(** A function call of a tool-call payload; every member is optional in
    the SDK's type.  [fc_args = None] is an absent [args] object. *)
Record FunctionCall : Type := mkFunctionCall {
  fc_id : jsval;
  fc_name : jsval;
  fc_args : option (list (string * jsval))
}.

Record FunctionResponse : Type := mkFunctionResponse {
  fr_id : jsval;
  fr_name : jsval;
  fr_result : string       (* [response.result] *)
}.

(** A part of [serverContent.modelTurn.parts]. *)
Record Part : Type := mkPart {
  text : option string;
  inlineData : option string     (* [inlineData.data], base64 *)
}.

(** [parts = None] when [serverContent], [modelTurn] or [parts] is absent;
    [toolCall] carries its [functionCalls]. *)
Record LiveServerMessage : Type := mkMessage {
  parts : option (list Part);
  toolCall : option (list FunctionCall);
  interrupted : bool
}.

(** *** Browser objects *)

Inductive AudioContextState : Type := running | suspended | closed.

(** A scheduled [AudioBufferSourceNode]: when it was told to start and
    how long its buffer lasts. *)
Record AudioSource : Type := mkAudioSource {
  src_id : nat;
  startAt : Z;
  duration : Z
}.

Inductive TimerKind : Type :=
| ReconnectTimeout       (* the [setTimeout] of [onclose] *)
| FrameInterval.         (* the [setInterval] of [startVideoStreaming] *)

Record Timer : Type := mkTimer {
  handle : nat;
  kind : TimerKind;
  delay : Z                (* milliseconds *)
}.

(** The session promise kept in [sessionRef], with what its closures
    captured. *)
Record Session : Type := mkSession {
  sess_attempt : Z;
  sess_audioId : string;
  sess_videoId : string;
  systemInstruction : string
}.

(** *** The component's state, the refs and the browser around them *)

Record State : Type := mkState {
  isConnected : bool;
  isConnecting : bool;
  logs : list LogEntry;
  memories : list MemoryItem;
  arOverlays : list AROverlayData;
  videoSrcObject : bool;  (* [videoRef.current.srcObject] holds a stream *)
  audioContextRef : option AudioContextState;
  inputContextRef : option AudioContextState;
  analyserRef : bool;
  sourcesRef : list AudioSource;
  sessionRef : option Session;
  isStreamingRef : bool;
  nextStartTimeRef : Z;
  frameIntervalRef : option nat;
  activeAudioIdRef : string;
  activeVideoIdRef : string;
  isUserDisconnectingRef : bool;
  reconnectTimeoutRef : option nat;
  connectionAttemptIdRef : Z;
  storage : MemoryService.Storage;  (* [localStorage] *)
  timers : list Timer;  (* the browser's pending timers *)
  nextHandle : nat;  (* the next timer handle the browser hands out *)
  nextSourceId : nat;  (* identity of the next [AudioBufferSourceNode] *)
  pendingDecodes : list string;  (* [playAudioResponse] calls waiting in [await decodeAudioData] *)
  stopped : list nat;  (* sources on which [stop()] was called, in order *)
  toolResponses : list (Z * FunctionResponse);  (* [sendToolResponse] calls, with the attempt of the session *)
  minted : list Z  (* attempt identifiers minted by [connect], in order *)
}.

Definition set_isConnected (v : bool) (s : State) : State :=
  mkState v (isConnecting s) (logs s) (memories s) (arOverlays s)
    (videoSrcObject s) (audioContextRef s) (inputContextRef s)
    (analyserRef s) (sourcesRef s) (sessionRef s) (isStreamingRef s)
    (nextStartTimeRef s) (frameIntervalRef s) (activeAudioIdRef s)
    (activeVideoIdRef s) (isUserDisconnectingRef s) (reconnectTimeoutRef
    s) (connectionAttemptIdRef s) (storage s) (timers s) (nextHandle s)
    (nextSourceId s) (pendingDecodes s) (stopped s) (toolResponses s)
    (minted s).

Definition set_isConnecting (v : bool) (s : State) : State :=
  mkState (isConnected s) v (logs s) (memories s) (arOverlays s)
    (videoSrcObject s) (audioContextRef s) (inputContextRef s)
    (analyserRef s) (sourcesRef s) (sessionRef s) (isStreamingRef s)
    (nextStartTimeRef s) (frameIntervalRef s) (activeAudioIdRef s)
    (activeVideoIdRef s) (isUserDisconnectingRef s) (reconnectTimeoutRef
    s) (connectionAttemptIdRef s) (storage s) (timers s) (nextHandle s)
    (nextSourceId s) (pendingDecodes s) (stopped s) (toolResponses s)
    (minted s).

Definition set_logs (v : list LogEntry) (s : State) : State :=
  mkState (isConnected s) (isConnecting s) v (memories s) (arOverlays s)
    (videoSrcObject s) (audioContextRef s) (inputContextRef s)
    (analyserRef s) (sourcesRef s) (sessionRef s) (isStreamingRef s)
    (nextStartTimeRef s) (frameIntervalRef s) (activeAudioIdRef s)
    (activeVideoIdRef s) (isUserDisconnectingRef s) (reconnectTimeoutRef
    s) (connectionAttemptIdRef s) (storage s) (timers s) (nextHandle s)
    (nextSourceId s) (pendingDecodes s) (stopped s) (toolResponses s)
    (minted s).

Definition set_memories (v : list MemoryItem) (s : State) : State :=
  mkState (isConnected s) (isConnecting s) (logs s) v (arOverlays s)
    (videoSrcObject s) (audioContextRef s) (inputContextRef s)
    (analyserRef s) (sourcesRef s) (sessionRef s) (isStreamingRef s)
    (nextStartTimeRef s) (frameIntervalRef s) (activeAudioIdRef s)
    (activeVideoIdRef s) (isUserDisconnectingRef s) (reconnectTimeoutRef
    s) (connectionAttemptIdRef s) (storage s) (timers s) (nextHandle s)
    (nextSourceId s) (pendingDecodes s) (stopped s) (toolResponses s)
    (minted s).

Definition set_arOverlays (v : list AROverlayData) (s : State) : State :=
  mkState (isConnected s) (isConnecting s) (logs s) (memories s) v
    (videoSrcObject s) (audioContextRef s) (inputContextRef s)
    (analyserRef s) (sourcesRef s) (sessionRef s) (isStreamingRef s)
    (nextStartTimeRef s) (frameIntervalRef s) (activeAudioIdRef s)
    (activeVideoIdRef s) (isUserDisconnectingRef s) (reconnectTimeoutRef
    s) (connectionAttemptIdRef s) (storage s) (timers s) (nextHandle s)
    (nextSourceId s) (pendingDecodes s) (stopped s) (toolResponses s)
    (minted s).

Definition set_videoSrcObject (v : bool) (s : State) : State :=
  mkState (isConnected s) (isConnecting s) (logs s) (memories s)
    (arOverlays s) v (audioContextRef s) (inputContextRef s) (analyserRef
    s) (sourcesRef s) (sessionRef s) (isStreamingRef s) (nextStartTimeRef
    s) (frameIntervalRef s) (activeAudioIdRef s) (activeVideoIdRef s)
    (isUserDisconnectingRef s) (reconnectTimeoutRef s)
    (connectionAttemptIdRef s) (storage s) (timers s) (nextHandle s)
    (nextSourceId s) (pendingDecodes s) (stopped s) (toolResponses s)
    (minted s).

Definition set_audioContextRef (v : option AudioContextState) (s : State) : State :=
  mkState (isConnected s) (isConnecting s) (logs s) (memories s)
    (arOverlays s) (videoSrcObject s) v (inputContextRef s) (analyserRef
    s) (sourcesRef s) (sessionRef s) (isStreamingRef s) (nextStartTimeRef
    s) (frameIntervalRef s) (activeAudioIdRef s) (activeVideoIdRef s)
    (isUserDisconnectingRef s) (reconnectTimeoutRef s)
    (connectionAttemptIdRef s) (storage s) (timers s) (nextHandle s)
    (nextSourceId s) (pendingDecodes s) (stopped s) (toolResponses s)
    (minted s).

Definition set_inputContextRef (v : option AudioContextState) (s : State) : State :=
  mkState (isConnected s) (isConnecting s) (logs s) (memories s)
    (arOverlays s) (videoSrcObject s) (audioContextRef s) v (analyserRef
    s) (sourcesRef s) (sessionRef s) (isStreamingRef s) (nextStartTimeRef
    s) (frameIntervalRef s) (activeAudioIdRef s) (activeVideoIdRef s)
    (isUserDisconnectingRef s) (reconnectTimeoutRef s)
    (connectionAttemptIdRef s) (storage s) (timers s) (nextHandle s)
    (nextSourceId s) (pendingDecodes s) (stopped s) (toolResponses s)
    (minted s).

Definition set_analyserRef (v : bool) (s : State) : State :=
  mkState (isConnected s) (isConnecting s) (logs s) (memories s)
    (arOverlays s) (videoSrcObject s) (audioContextRef s) (inputContextRef
    s) v (sourcesRef s) (sessionRef s) (isStreamingRef s)
    (nextStartTimeRef s) (frameIntervalRef s) (activeAudioIdRef s)
    (activeVideoIdRef s) (isUserDisconnectingRef s) (reconnectTimeoutRef
    s) (connectionAttemptIdRef s) (storage s) (timers s) (nextHandle s)
    (nextSourceId s) (pendingDecodes s) (stopped s) (toolResponses s)
    (minted s).

Definition set_sourcesRef (v : list AudioSource) (s : State) : State :=
  mkState (isConnected s) (isConnecting s) (logs s) (memories s)
    (arOverlays s) (videoSrcObject s) (audioContextRef s) (inputContextRef
    s) (analyserRef s) v (sessionRef s) (isStreamingRef s)
    (nextStartTimeRef s) (frameIntervalRef s) (activeAudioIdRef s)
    (activeVideoIdRef s) (isUserDisconnectingRef s) (reconnectTimeoutRef
    s) (connectionAttemptIdRef s) (storage s) (timers s) (nextHandle s)
    (nextSourceId s) (pendingDecodes s) (stopped s) (toolResponses s)
    (minted s).

Definition set_sessionRef (v : option Session) (s : State) : State :=
  mkState (isConnected s) (isConnecting s) (logs s) (memories s)
    (arOverlays s) (videoSrcObject s) (audioContextRef s) (inputContextRef
    s) (analyserRef s) (sourcesRef s) v (isStreamingRef s)
    (nextStartTimeRef s) (frameIntervalRef s) (activeAudioIdRef s)
    (activeVideoIdRef s) (isUserDisconnectingRef s) (reconnectTimeoutRef
    s) (connectionAttemptIdRef s) (storage s) (timers s) (nextHandle s)
    (nextSourceId s) (pendingDecodes s) (stopped s) (toolResponses s)
    (minted s).

Definition set_isStreamingRef (v : bool) (s : State) : State :=
  mkState (isConnected s) (isConnecting s) (logs s) (memories s)
    (arOverlays s) (videoSrcObject s) (audioContextRef s) (inputContextRef
    s) (analyserRef s) (sourcesRef s) (sessionRef s) v (nextStartTimeRef
    s) (frameIntervalRef s) (activeAudioIdRef s) (activeVideoIdRef s)
    (isUserDisconnectingRef s) (reconnectTimeoutRef s)
    (connectionAttemptIdRef s) (storage s) (timers s) (nextHandle s)
    (nextSourceId s) (pendingDecodes s) (stopped s) (toolResponses s)
    (minted s).

Definition set_nextStartTimeRef (v : Z) (s : State) : State :=
  mkState (isConnected s) (isConnecting s) (logs s) (memories s)
    (arOverlays s) (videoSrcObject s) (audioContextRef s) (inputContextRef
    s) (analyserRef s) (sourcesRef s) (sessionRef s) (isStreamingRef s) v
    (frameIntervalRef s) (activeAudioIdRef s) (activeVideoIdRef s)
    (isUserDisconnectingRef s) (reconnectTimeoutRef s)
    (connectionAttemptIdRef s) (storage s) (timers s) (nextHandle s)
    (nextSourceId s) (pendingDecodes s) (stopped s) (toolResponses s)
    (minted s).

Definition set_frameIntervalRef (v : option nat) (s : State) : State :=
  mkState (isConnected s) (isConnecting s) (logs s) (memories s)
    (arOverlays s) (videoSrcObject s) (audioContextRef s) (inputContextRef
    s) (analyserRef s) (sourcesRef s) (sessionRef s) (isStreamingRef s)
    (nextStartTimeRef s) v (activeAudioIdRef s) (activeVideoIdRef s)
    (isUserDisconnectingRef s) (reconnectTimeoutRef s)
    (connectionAttemptIdRef s) (storage s) (timers s) (nextHandle s)
    (nextSourceId s) (pendingDecodes s) (stopped s) (toolResponses s)
    (minted s).

Definition set_activeAudioIdRef (v : string) (s : State) : State :=
  mkState (isConnected s) (isConnecting s) (logs s) (memories s)
    (arOverlays s) (videoSrcObject s) (audioContextRef s) (inputContextRef
    s) (analyserRef s) (sourcesRef s) (sessionRef s) (isStreamingRef s)
    (nextStartTimeRef s) (frameIntervalRef s) v (activeVideoIdRef s)
    (isUserDisconnectingRef s) (reconnectTimeoutRef s)
    (connectionAttemptIdRef s) (storage s) (timers s) (nextHandle s)
    (nextSourceId s) (pendingDecodes s) (stopped s) (toolResponses s)
    (minted s).

Definition set_activeVideoIdRef (v : string) (s : State) : State :=
  mkState (isConnected s) (isConnecting s) (logs s) (memories s)
    (arOverlays s) (videoSrcObject s) (audioContextRef s) (inputContextRef
    s) (analyserRef s) (sourcesRef s) (sessionRef s) (isStreamingRef s)
    (nextStartTimeRef s) (frameIntervalRef s) (activeAudioIdRef s) v
    (isUserDisconnectingRef s) (reconnectTimeoutRef s)
    (connectionAttemptIdRef s) (storage s) (timers s) (nextHandle s)
    (nextSourceId s) (pendingDecodes s) (stopped s) (toolResponses s)
    (minted s).

Definition set_isUserDisconnectingRef (v : bool) (s : State) : State :=
  mkState (isConnected s) (isConnecting s) (logs s) (memories s)
    (arOverlays s) (videoSrcObject s) (audioContextRef s) (inputContextRef
    s) (analyserRef s) (sourcesRef s) (sessionRef s) (isStreamingRef s)
    (nextStartTimeRef s) (frameIntervalRef s) (activeAudioIdRef s)
    (activeVideoIdRef s) v (reconnectTimeoutRef s) (connectionAttemptIdRef
    s) (storage s) (timers s) (nextHandle s) (nextSourceId s)
    (pendingDecodes s) (stopped s) (toolResponses s) (minted s).

Definition set_reconnectTimeoutRef (v : option nat) (s : State) : State :=
  mkState (isConnected s) (isConnecting s) (logs s) (memories s)
    (arOverlays s) (videoSrcObject s) (audioContextRef s) (inputContextRef
    s) (analyserRef s) (sourcesRef s) (sessionRef s) (isStreamingRef s)
    (nextStartTimeRef s) (frameIntervalRef s) (activeAudioIdRef s)
    (activeVideoIdRef s) (isUserDisconnectingRef s) v
    (connectionAttemptIdRef s) (storage s) (timers s) (nextHandle s)
    (nextSourceId s) (pendingDecodes s) (stopped s) (toolResponses s)
    (minted s).

Definition set_connectionAttemptIdRef (v : Z) (s : State) : State :=
  mkState (isConnected s) (isConnecting s) (logs s) (memories s)
    (arOverlays s) (videoSrcObject s) (audioContextRef s) (inputContextRef
    s) (analyserRef s) (sourcesRef s) (sessionRef s) (isStreamingRef s)
    (nextStartTimeRef s) (frameIntervalRef s) (activeAudioIdRef s)
    (activeVideoIdRef s) (isUserDisconnectingRef s) (reconnectTimeoutRef
    s) v (storage s) (timers s) (nextHandle s) (nextSourceId s)
    (pendingDecodes s) (stopped s) (toolResponses s) (minted s).

Definition set_storage (v : MemoryService.Storage) (s : State) : State :=
  mkState (isConnected s) (isConnecting s) (logs s) (memories s)
    (arOverlays s) (videoSrcObject s) (audioContextRef s) (inputContextRef
    s) (analyserRef s) (sourcesRef s) (sessionRef s) (isStreamingRef s)
    (nextStartTimeRef s) (frameIntervalRef s) (activeAudioIdRef s)
    (activeVideoIdRef s) (isUserDisconnectingRef s) (reconnectTimeoutRef
    s) (connectionAttemptIdRef s) v (timers s) (nextHandle s)
    (nextSourceId s) (pendingDecodes s) (stopped s) (toolResponses s)
    (minted s).

Definition set_timers (v : list Timer) (s : State) : State :=
  mkState (isConnected s) (isConnecting s) (logs s) (memories s)
    (arOverlays s) (videoSrcObject s) (audioContextRef s) (inputContextRef
    s) (analyserRef s) (sourcesRef s) (sessionRef s) (isStreamingRef s)
    (nextStartTimeRef s) (frameIntervalRef s) (activeAudioIdRef s)
    (activeVideoIdRef s) (isUserDisconnectingRef s) (reconnectTimeoutRef
    s) (connectionAttemptIdRef s) (storage s) v (nextHandle s)
    (nextSourceId s) (pendingDecodes s) (stopped s) (toolResponses s)
    (minted s).

Definition set_nextHandle (v : nat) (s : State) : State :=
  mkState (isConnected s) (isConnecting s) (logs s) (memories s)
    (arOverlays s) (videoSrcObject s) (audioContextRef s) (inputContextRef
    s) (analyserRef s) (sourcesRef s) (sessionRef s) (isStreamingRef s)
    (nextStartTimeRef s) (frameIntervalRef s) (activeAudioIdRef s)
    (activeVideoIdRef s) (isUserDisconnectingRef s) (reconnectTimeoutRef
    s) (connectionAttemptIdRef s) (storage s) (timers s) v (nextSourceId
    s) (pendingDecodes s) (stopped s) (toolResponses s) (minted s).

Definition set_nextSourceId (v : nat) (s : State) : State :=
  mkState (isConnected s) (isConnecting s) (logs s) (memories s)
    (arOverlays s) (videoSrcObject s) (audioContextRef s) (inputContextRef
    s) (analyserRef s) (sourcesRef s) (sessionRef s) (isStreamingRef s)
    (nextStartTimeRef s) (frameIntervalRef s) (activeAudioIdRef s)
    (activeVideoIdRef s) (isUserDisconnectingRef s) (reconnectTimeoutRef
    s) (connectionAttemptIdRef s) (storage s) (timers s) (nextHandle s) v
    (pendingDecodes s) (stopped s) (toolResponses s) (minted s).

Definition set_pendingDecodes (v : list string) (s : State) : State :=
  mkState (isConnected s) (isConnecting s) (logs s) (memories s)
    (arOverlays s) (videoSrcObject s) (audioContextRef s) (inputContextRef
    s) (analyserRef s) (sourcesRef s) (sessionRef s) (isStreamingRef s)
    (nextStartTimeRef s) (frameIntervalRef s) (activeAudioIdRef s)
    (activeVideoIdRef s) (isUserDisconnectingRef s) (reconnectTimeoutRef
    s) (connectionAttemptIdRef s) (storage s) (timers s) (nextHandle s)
    (nextSourceId s) v (stopped s) (toolResponses s) (minted s).

Definition set_stopped (v : list nat) (s : State) : State :=
  mkState (isConnected s) (isConnecting s) (logs s) (memories s)
    (arOverlays s) (videoSrcObject s) (audioContextRef s) (inputContextRef
    s) (analyserRef s) (sourcesRef s) (sessionRef s) (isStreamingRef s)
    (nextStartTimeRef s) (frameIntervalRef s) (activeAudioIdRef s)
    (activeVideoIdRef s) (isUserDisconnectingRef s) (reconnectTimeoutRef
    s) (connectionAttemptIdRef s) (storage s) (timers s) (nextHandle s)
    (nextSourceId s) (pendingDecodes s) v (toolResponses s) (minted s).

Definition set_toolResponses (v : list (Z * FunctionResponse)) (s : State) : State :=
  mkState (isConnected s) (isConnecting s) (logs s) (memories s)
    (arOverlays s) (videoSrcObject s) (audioContextRef s) (inputContextRef
    s) (analyserRef s) (sourcesRef s) (sessionRef s) (isStreamingRef s)
    (nextStartTimeRef s) (frameIntervalRef s) (activeAudioIdRef s)
    (activeVideoIdRef s) (isUserDisconnectingRef s) (reconnectTimeoutRef
    s) (connectionAttemptIdRef s) (storage s) (timers s) (nextHandle s)
    (nextSourceId s) (pendingDecodes s) (stopped s) v (minted s).

Definition set_minted (v : list Z) (s : State) : State :=
  mkState (isConnected s) (isConnecting s) (logs s) (memories s)
    (arOverlays s) (videoSrcObject s) (audioContextRef s) (inputContextRef
    s) (analyserRef s) (sourcesRef s) (sessionRef s) (isStreamingRef s)
    (nextStartTimeRef s) (frameIntervalRef s) (activeAudioIdRef s)
    (activeVideoIdRef s) (isUserDisconnectingRef s) (reconnectTimeoutRef
    s) (connectionAttemptIdRef s) (storage s) (timers s) (nextHandle s)
    (nextSourceId s) (pendingDecodes s) (stopped s) (toolResponses s) v.

Definition initial : State :=
  mkState false false [] [] [] false None None false [] None false 0 None
          "" "" false None 0 None [] 1%nat 0%nat [] [] [] [].

(** *** Inputs read from the environment *)

(** What one call of [connect] reads: [Date.now()], whether
    [process.env.API_KEY] is set, the [isConnected] its closure captured
    at render time, whether the audio contexts come up, and the text of
    the error when [ai.live.connect] throws. *)
Record ConnectEnv : Type := mkConnectEnv {
  ce_now : Z;
  ce_apiKey : bool;
  ce_seenConnected : bool;
  ce_audioSetupOk : bool;
  ce_liveConnectError : option string
}.

(** What one [onmessage] reads: [ctx.currentTime] and [Date.now()]. *)
Record MessageEnv : Type := mkMessageEnv {
  me_ctxTime : Z;
  me_now : Z
}.

(** *** Logging, timers, teardown *)

Definition addLog (msg : string) (src : LogSource) (ty : LogType)
           (s : State) : State :=
  set_logs (logs s ++ [mkLogEntry src msg ty]) s.

(** [clearTimeout] and [clearInterval] draw on one pool of handles. *)
Definition clearTimer (h : nat) (s : State) : State :=
  set_timers (filter (fun t => negb (Nat.eqb (handle t) h)) (timers s)) s.

(** [if (ref.current) clearX(ref.current)]: [null] and [0] are falsy. *)
Definition clear_if_set (r : option nat) (s : State) : State :=
  match r with
  | Some (S n) => clearTimer (S n) s
  | _ => s
  end.

(** [setTimeout] / [setInterval]: the handle returned is [nextHandle s]. *)
Definition setTimer (k : TimerKind) (d : Z) (s : State) : State :=
  set_nextHandle (S (nextHandle s))
    (set_timers (timers s ++ [mkTimer (nextHandle s) k d]) s).

Definition stopAllAudio (s : State) : State :=
  let s := set_stopped (stopped s ++ map src_id (sourcesRef s)) s in
  let s := set_sourcesRef [] s in
  set_nextStartTimeRef 0 s.

Definition close_context (r : option AudioContextState)
  : option AudioContextState :=
  match r with
  | Some _ => Some closed
  | None => None
  end.

Definition cleanup (s : State) : State :=
  let s := set_isStreamingRef false s in
  let s := set_isConnected false s in
  let s := set_isConnecting false s in
  let s := clear_if_set (frameIntervalRef s) s in
  let s := set_videoSrcObject false s in
  let s := set_audioContextRef (close_context (audioContextRef s)) s in
  let s := set_inputContextRef (close_context (inputContextRef s)) s in
  set_arOverlays [] s.

Definition disconnect (s : State) : State :=
  let s := set_isUserDisconnectingRef true s in
  let s := clear_if_set (reconnectTimeoutRef s) s in
  let s := cleanup s in
  addLog "系统脱离。" SYSTEM warning s.

(** *** connect *)

Definition drop_closed (r : option AudioContextState)
  : option AudioContextState :=
  match r with
  | Some closed => None
  | _ => r
  end.

Definition instruction_head : string :=
  ("你是JARVIS。全能AI管家。始终用中文简练回答。视觉识别格式:[OBJECT:name:ymin,xmin,ymax,xmax]。"
     ++ newline ++ "记忆:")%string.

(** [connect], run in one piece: the two [await resume()] of a suspended
    context are not split off. *)
Definition connect (audioId videoId : string) (env : ConnectEnv)
           (s : State) : State :=
  let attemptId := ce_now env in
  let s := set_minted (minted s ++ [attemptId]) s in
  let s := set_connectionAttemptIdRef attemptId s in
  if negb (ce_apiKey env) then addLog "API Key 缺失" SYSTEM error s
  else
    let s := set_isConnecting true s in
    let s := if negb (ce_seenConnected env)
             then addLog "正在初始化加密链路..." SYSTEM info s else s in
    let s := set_audioContextRef (drop_closed (audioContextRef s)) s in
    let s := set_inputContextRef (drop_closed (inputContextRef s)) s in
    if negb (ce_audioSetupOk env)
    then addLog "音频核心启动失败" SYSTEM error s
    else
      let s := set_audioContextRef (Some running) s in
      let s := set_inputContextRef (Some running) s in
      let s := set_analyserRef true s in
      let memoryContext := MemoryService.getContextString (storage s) in
      match ce_liveConnectError env with
      | Some err =>
          let s := addLog ("连接失败: " ++ err)%string SYSTEM error s in
          set_isConnecting false s
      | None =>
          set_sessionRef
            (Some (mkSession attemptId audioId videoId
                             (instruction_head ++ memoryContext)%string)) s
      end.

Definition handleDeviceSelection (audioId videoId : string)
           (env : ConnectEnv) (s : State) : State :=
  let s := set_activeAudioIdRef audioId s in
  let s := set_activeVideoIdRef videoId s in
  let s := set_isUserDisconnectingRef false s in
  connect audioId videoId env s.

(** *** onopen *)

Definition startVideoStreaming (s : State) : State :=
  let s := clear_if_set (frameIntervalRef s) s in
  let h := nextHandle s in
  let s := setTimer FrameInterval 1000 s in
  set_frameIntervalRef (Some h) s.

(** [onopen] up to [await getUserMedia]. *)
Definition onopen (attemptId : Z) (s : State) : State :=
  if negb (Z.eqb (connectionAttemptIdRef s) attemptId) then s
  else
    let s := addLog "系统在线。链路稳定。" SYSTEM success s in
    let s := set_isConnected true s in
    let s := set_isConnecting false s in
    let s := set_isStreamingRef true s in
    set_nextStartTimeRef 0 s.

(** [onopen] after [getUserMedia] settled: [None] when the stream came
    and was wired, [Some err] when the [try] block threw [err]. *)
Definition onopen_resume (outcome : option string) (s : State) : State :=
  match outcome with
  | None => startVideoStreaming (set_videoSrcObject true s)
  | Some err =>
      disconnect (addLog ("传感器挂载失败: " ++ err)%string SYSTEM error s)
  end.

(** *** parseARObjects *)

Definition overlay_of (now : Z) (m : Regex.Match) : AROverlayData :=
  mkAROverlayData (Regex.group1 m)
    (Regex.parseInt (Regex.group2 m), Regex.parseInt (Regex.group3 m),
     Regex.parseInt (Regex.group4 m), Regex.parseInt (Regex.group5 m))
    "#22d3ee" now.

(** The [newOverlays] array the loop builds. *)
Definition newOverlays (txt : string) (now : Z) : list AROverlayData :=
  map (overlay_of now) (Regex.exec_all txt).

Definition parseARObjects (txt : string) (now : Z) (s : State) : State :=
  let new := newOverlays txt now in
  if Nat.ltb 0 (List.length new)
  then set_arOverlays (arOverlays s ++ new) s
  else s.

(** *** handleToolCalls *)

(** [args.name] on an object. *)
Fixpoint prop (args : list (string * jsval)) (name : string) : jsval :=
  match args with
  | [] => JUndefined
  | (n, v) :: rest => if String.eqb n name then v else prop rest name
  end.

(** A function body that returns, or throws with the state it left. *)
Inductive Completion : Type :=
| Returned (s : State)
| Threw (s : State).

Definition state_of (c : Completion) : State :=
  match c with
  | Returned s => s
  | Threw s => s
  end.

(** The three [if]s that compute [result]; [None] when reading a member
    of an absent [fc.args] throws a [TypeError]. *)
Definition tool_result (fc : FunctionCall) (now : Z) (s : State)
  : option (string * State) :=
  let result := "OK" in
  match
    (if jsval_eqb (fc_name fc) (JStr "setReminder")
     then match fc_args fc with
          | Some args => Some ("已设提醒: " ++ template (prop args "task"))%string
          | None => None
          end
     else Some result)
  with
  | None => None
  | Some result =>
      match
        (if jsval_eqb (fc_name fc) (JStr "toggleSmartHome")
         then match fc_args fc with
              | Some args =>
                  Some (template (prop args "device") ++ " 已 "
                          ++ template (prop args "action"))%string
              | None => None
              end
         else Some result)
      with
      | None => None
      | Some result =>
          if jsval_eqb (fc_name fc) (JStr "saveToLongTermMemory")
          then match fc_args fc with
               | Some args =>
                   let st := snd (MemoryService.save (prop args "key")
                                    (prop args "value") now (storage s)) in
                   let s := set_storage st s in
                   let s := set_memories (MemoryService.load (storage s)) s in
                   Some ("已归档", s)
               | None => None
               end
          else Some (result, s)
      end
  end.

(** [sessionPromise.then(s => s.sendToolResponse(...))]: the promise of
    the session whose callback runs is settled, so the response goes out
    in the order of the calls; it is recorded with the attempt of that
    session. *)
Definition sendToolResponse (attemptId : Z) (r : FunctionResponse)
           (s : State) : State :=
  set_toolResponses (toolResponses s ++ [(attemptId, r)]) s.

(** One round of the [for] loop. *)
Definition handleFunctionCall (attemptId : Z) (now : Z) (fc : FunctionCall)
           (s : State) : Completion :=
  let s := addLog ("调用协议: " ++ template (fc_name fc))%string TOOL info s in
  match tool_result fc now s with
  | None => Threw s
  | Some (result, s) =>
      Returned (sendToolResponse attemptId
                  (mkFunctionResponse (fc_id fc) (fc_name fc) result) s)
  end.

Fixpoint handleToolCalls (functionCalls : list FunctionCall)
         (attemptId : Z) (now : Z) (s : State) : Completion :=
  match functionCalls with
  | [] => Returned s
  | fc :: rest =>
      match handleFunctionCall attemptId now fc s with
      | Returned s' => handleToolCalls rest attemptId now s'
      | Threw s' => Threw s'
      end
  end.


(** *** Playback, onmessage, onclose *)

Section Handlers.

(** [utils/audioUtils]: [decode] turns base64 text into bytes and
    throws on text that is not base64 ([None]); [decodeAudioData]
    builds the buffer, of which only the duration matters here, and
    may reject ([None]). *)
Variable decode : string -> option string.
Variable decodeAudioData : string -> option Z.

(** [playAudioResponse] up to [await decodeAudioData]. *)
Definition playAudioResponse_begin (base64Data : string) (ctxTime : Z)
           (s : State) : State :=
  match decode base64Data with
  | None => s
  | Some decoded =>
      let s := set_nextStartTimeRef
                 (Z.max (nextStartTimeRef s) ctxTime) s in
      set_pendingDecodes (pendingDecodes s ++ [decoded]) s
  end.

Fixpoint remove_nth {A : Type} (i : nat) (l : list A) : list A :=
  match i, l with
  | _, [] => []
  | O, _ :: rest => rest
  | S i', x :: rest => x :: remove_nth i' rest
  end.

(** [playAudioResponse] after the [await], for the [i]-th call that
    waits there. *)
Definition playAudioResponse_resume (i : nat) (s : State) : State :=
  match nth_error (pendingDecodes s) i with
  | None => s
  | Some decoded =>
      let s := set_pendingDecodes (remove_nth i (pendingDecodes s)) s in
      match decodeAudioData decoded with
      | None => s
      | Some d =>
          let src := mkAudioSource (nextSourceId s)
                                   (nextStartTimeRef s) d in
          let s := set_nextSourceId (S (nextSourceId s)) s in
          let s := set_nextStartTimeRef (nextStartTimeRef s + d) s in
          set_sourcesRef (sourcesRef s ++ [src]) s
      end
  end.

(** The whole of [playAudioResponse] when nothing runs during the
    [await]. *)
Definition playAudioResponse (base64Data : string) (ctxTime : Z)
           (s : State) : State :=
  playAudioResponse_resume (List.length (pendingDecodes s))
    (playAudioResponse_begin base64Data ctxTime s).

(** [source.onended]. *)
Definition onended (id : nat) (s : State) : State :=
  set_sourcesRef
    (filter (fun x => negb (Nat.eqb (src_id x) id)) (sourcesRef s)) s.

(** [msg.serverContent?.modelTurn?.parts?.[0]?.inlineData?.data]. *)
Definition audioData (msg : LiveServerMessage) : option string :=
  match parts msg with
  | Some (p :: _) => inlineData p
  | _ => None
  end.

(** A string in a condition: the empty string is falsy. *)
Definition truthy (o : option string) : option string :=
  match o with
  | Some EmptyString => None
  | _ => o
  end.

Definition is_some {A : Type} (o : option A) : bool :=
  match o with
  | Some _ => true
  | None => false
  end.

Definition onmessage (attemptId : Z) (msg : LiveServerMessage)
           (env : MessageEnv) (s : State) : State :=
  if negb (Z.eqb (connectionAttemptIdRef s) attemptId) then s
  else
    (* Audio *)
    let s :=
      match truthy (audioData msg) with
      | Some data =>
          if (is_some (audioContextRef s) && analyserRef s)%bool
          then playAudioResponse_begin data (me_ctxTime env) s
          else s
      | None => s
      end in
    (* AR & Text *)
    let s :=
      match parts msg with
      | Some ps =>
          fold_left
            (fun acc p =>
               match truthy (text p) with
               | Some t => parseARObjects t (me_now env) acc
               | None => acc
               end) ps s
      | None => s
      end in
    (* Tool Calls *)
    let s :=
      match toolCall msg with
      | Some functionCalls =>
          state_of (handleToolCalls functionCalls attemptId (me_now env) s)
      | None => s
      end in
    (* Interruption *)
    if interrupted msg
    then stopAllAudio (addLog "用户打断" JARVIS warning s)
    else s.

Definition onclose (attemptId : Z) (s : State) : State :=
  if negb (Z.eqb (connectionAttemptIdRef s) attemptId) then s
  else if negb (isUserDisconnectingRef s) then
    let s := addLog "链路波动，正在重新校准..." SYSTEM warning s in
    let s := set_isStreamingRef false s in
    let s := clear_if_set (frameIntervalRef s) s in
    let s := clear_if_set (reconnectTimeoutRef s) s in
    let h := nextHandle s in
    let s := setTimer ReconnectTimeout 1500 s in
    set_reconnectTimeoutRef (Some h) s
  else
    cleanup (addLog "会话已正常结束。" SYSTEM info s).

(** [onerror] only writes to the console. *)
Definition onerror (attemptId : Z) (s : State) : State := s.

(** The callback of a pending timer: the reconnect closure calls
    [connect] with the device refs as they are when it runs; the frame
    sampler only sends frames, which are not part of the state. *)
Definition fire (h : nat) (env : ConnectEnv) (s : State) : State :=
  match find (fun t => Nat.eqb (handle t) h) (timers s) with
  | Some t =>
      match kind t with
      | ReconnectTimeout =>
          connect (activeAudioIdRef s) (activeVideoIdRef s) env
                  (clearTimer h s)
      | FrameInterval => s
      end
  | None => s
  end.

(** *** The event loop

    One task of the single-threaded event loop at a time.  The
    environment is free: it may deliver callbacks of any attempt in any
    order, so the runs below include every run the browser produces. *)
Inductive Event : Type :=
| EvSelectDevices (audioId videoId : string) (env : ConnectEnv)
| EvDisconnect
| EvOpen (attemptId : Z)
| EvMedia (outcome : option string)
| EvMessage (attemptId : Z) (msg : LiveServerMessage) (env : MessageEnv)
| EvDecoded (i : nat)
| EvEnded (id : nat)
| EvClose (attemptId : Z)
| EvError (attemptId : Z)
| EvTimer (h : nat) (env : ConnectEnv).

Definition step (s : State) (e : Event) : State :=
  match e with
  | EvSelectDevices audioId videoId env =>
      handleDeviceSelection audioId videoId env s
  | EvDisconnect => disconnect s
  | EvOpen a => onopen a s
  | EvMedia outcome => onopen_resume outcome s
  | EvMessage a msg env => onmessage a msg env s
  | EvDecoded i => playAudioResponse_resume i s
  | EvEnded id => onended id s
  | EvClose a => onclose a s
  | EvError a => onerror a s
  | EvTimer h env => fire h env s
  end.

Definition run (s : State) (es : list Event) : State :=
  fold_left step es s.

Inductive reachable : State -> Prop :=
| reachable_initial : reachable initial
| reachable_step s e : reachable s -> reachable (step s e).

(** The user asks for a connection. *)
Definition is_select (e : Event) : bool :=
  match e with
  | EvSelectDevices _ _ _ => true
  | _ => false
  end.

Definition reconnect_timers (s : State) : list Timer :=
  filter (fun t => match kind t with
                   | ReconnectTimeout => true
                   | FrameInterval => false
                   end) (timers s).

(** What the timer pool and the two timer refs satisfy in every
    reachable state. *)
Record timers_wf (s : State) : Prop := mk_timers_wf {
  wf_next : (0 < nextHandle s)%nat;
  wf_nodup : NoDup (map handle (timers s));
  wf_range : forall t, In t (timers s) ->
               (0 < handle t /\ handle t < nextHandle s)%nat;
  wf_reconnect : forall t, In t (timers s) -> kind t = ReconnectTimeout ->
                   reconnectTimeoutRef s = Some (handle t);
  wf_frames : forall t, In t (timers s) -> kind t = FrameInterval ->
                frameIntervalRef s = Some (handle t)
}.

End Handlers.

(** *** Views of the state used in the proofs *)

(** The part of the state that timers and reconnection depend on. *)
Definition timer_core (s : State) :=
  (timers s, nextHandle s, reconnectTimeoutRef s, frameIntervalRef s,
   isUserDisconnectingRef s, minted s, connectionAttemptIdRef s,
   activeAudioIdRef s, activeVideoIdRef s).

(** The sources that play and the record of [stop()] calls. *)
Definition audio_core (s : State) := (sourcesRef s, stopped s).

(** After a user disconnect: the flag is up and no reconnect is pending. *)
Definition quiet (s : State) : Prop :=
  isUserDisconnectingRef s = true /\ reconnect_timers s = [].

(** The tools of [TOOLS_DECLARATION]. *)
Definition recognised (fc : FunctionCall) : bool :=
  (jsval_eqb (fc_name fc) (JStr "setReminder")
   || jsval_eqb (fc_name fc) (JStr "toggleSmartHome")
   || jsval_eqb (fc_name fc) (JStr "saveToLongTermMemory"))%bool.

(** A call that [handleToolCalls] answers: a recognised tool comes with
    its [args] object. *)
Definition answerable (fc : FunctionCall) : bool :=
  (negb (recognised fc) || is_some (fc_args fc))%bool.

(** The [result] text sent back for an answerable call. *)
Definition reply_text (fc : FunctionCall) : string :=
  let args := match fc_args fc with Some a => a | None => [] end in
  if jsval_eqb (fc_name fc) (JStr "saveToLongTermMemory") then "已归档"
  else if jsval_eqb (fc_name fc) (JStr "toggleSmartHome")
  then (template (prop args "device") ++ " 已 "
          ++ template (prop args "action"))%string
  else if jsval_eqb (fc_name fc) (JStr "setReminder")
  then ("已设提醒: " ++ template (prop args "task"))%string
  else "OK".

Definition reply (attemptId : Z) (fc : FunctionCall)
  : Z * FunctionResponse :=
  (attemptId, mkFunctionResponse (fc_id fc) (fc_name fc) (reply_text fc)).

(** A stand-in codec to run examples with: every text decodes to itself,
    and a buffer lasts one frame per two bytes (16-bit mono PCM). *)
Definition sample_decode (base64Data : string) : option string :=
  Some base64Data.

Definition sample_decodeAudioData (decoded : string) : option Z :=
  Some (Z.of_nat (String.length decoded) / 2).

(** *** The AR render loop *)



(** *** More views of the state *)

Definition frame_timers (s : State) : list Timer :=
  filter (fun t => match kind t with
                   | FrameInterval => true
                   | ReconnectTimeout => false
                   end) (timers s).

(** [connect] stops at one of its three error exits. *)
Definition connect_fails (env : ConnectEnv) : bool :=
  (negb (ce_apiKey env) || negb (ce_audioSetupOk env)
   || is_some (ce_liveConnectError env))%bool.

(** The events that put the playback clock back to zero. *)
Definition resets_clock (e : Event) : bool :=
  match e with
  | EvOpen _ => true
  | EvMessage _ msg _ => interrupted msg
  | _ => false
  end.


(** The overlays a part of a message adds. *)
Definition part_overlays (now : Z) (p : Part) : list AROverlayData :=
  match truthy (text p) with
  | Some t => newOverlays t now
  | None => []
  end.

(** The source ids in use are distinct and were all handed out. *)
Definition sources_wf (s : State) : Prop :=
  NoDup (map src_id (sourcesRef s))
  /\ (forall src, In src (sourcesRef s) -> (src_id src < nextSourceId s)%nat).

(** What playback rests on. *)
Definition playback_core (s : State) :=
  (nextStartTimeRef s, sourcesRef s, nextSourceId s, pendingDecodes s,
   stopped s).

(** The memory panel, the store behind it and the responses sent. *)
Definition memory_core (s : State) :=
  (memories s, storage s, toolResponses s).

(** The connection: timers, attempt and devices, the session held, the
    session flags, the audio contexts and the camera stream. *)
Definition connection_core (s : State) :=
  (timer_core s, sessionRef s, isConnected s, isConnecting s,
   isStreamingRef s, audioContextRef s, inputContextRef s, analyserRef s,
   videoSrcObject s).

End App.

(* ================================================================== *)
(** * Properties *)

(* ------------------------------------------------------------------ *)
(** ** Memory store *)

Lemma jsval_eqb_eq (a b : jsval) : jsval_eqb a b = true <-> a = b.
Proof.
  destruct a as [|s], b as [|t]; simpl; split; intro H;
    try reflexivity; try discriminate.
  - apply String.eqb_eq in H. now subst.
  - injection H as ->. apply String.eqb_refl.
Qed.

Lemma jsval_eqb_refl (a : jsval) : jsval_eqb a a = true.
Proof. now apply jsval_eqb_eq. Qed.

Lemma jsval_eqb_neq (a b : jsval) : jsval_eqb a b = false <-> a <> b.
Proof.
  split.
  - intros H E. apply jsval_eqb_eq in E. congruence.
  - intro H. destruct (jsval_eqb a b) eqn:E; [|reflexivity].
    apply jsval_eqb_eq in E. contradiction.
Qed.

Lemma jsval_eqb_sym (a b : jsval) : jsval_eqb a b = jsval_eqb b a.
Proof.
  destruct a, b; simpl; try reflexivity. apply String.eqb_sym.
Qed.

Section MemoryStore.
Import MemoryService.

Lemma load_save (k v : jsval) (t : Z) (st : Storage) :
  load (snd (save k v t st)) =
  filter (fun m => negb (jsval_eqb (key m) k)) (load st)
    ++ [mkMemoryItem k v t].
Proof. reflexivity. Qed.

Lemma with_key_others (k : jsval) (l : list MemoryItem) :
  with_key k (filter (fun m => negb (jsval_eqb (key m) k)) l) = [].
Proof.
  unfold with_key. induction l as [|m l IH]; simpl; [reflexivity|].
  destruct (jsval_eqb (key m) k) eqn:E; simpl; [exact IH|].
  rewrite E. exact IH.
Qed.

Lemma with_key_app (k : jsval) (l1 l2 : list MemoryItem) :
  with_key k (l1 ++ l2) = with_key k l1 ++ with_key k l2.
Proof. apply filter_app. Qed.

Lemma with_key_le_1 (k : jsval) (l : list MemoryItem) :
  NoDup (map key l) -> (List.length (with_key k l) <= 1)%nat.
Proof.
  unfold with_key. induction l as [|m l IH]; simpl; intro H; [lia|].
  inversion H as [|? ? Hnotin Hnd]; subst.
  destruct (jsval_eqb (key m) k) eqn:E; [|auto].
  apply jsval_eqb_eq in E. simpl.
  assert (Hnil : filter (fun m0 => jsval_eqb (key m0) k) l = []).
  { clear IH H Hnd. induction l as [|x l IHl]; simpl; [reflexivity|].
    destruct (jsval_eqb (key x) k) eqn:Ex.
    - apply jsval_eqb_eq in Ex. exfalso. apply Hnotin. left. congruence.
    - apply IHl. intro Hin. apply Hnotin. now right. }
  rewrite Hnil. simpl. lia.
Qed.

Lemma save_unique (k v : jsval) (t : Z) (st : Storage) :
  unique_keys st -> unique_keys (snd (save k v t st)).
Proof.
  unfold unique_keys. rewrite load_save. generalize (load st) as l.
  intros l H. rewrite map_app. simpl.
  assert (Hf : NoDup (map key (filter (fun m => negb (jsval_eqb (key m) k)) l))
               /\ ~ In k (map key (filter (fun m => negb (jsval_eqb (key m) k)) l))).
  { induction l as [|m l IH]; simpl.
    - split; [constructor | tauto].
    - inversion H as [|? ? Hnotin Hnd]; subst.
      destruct (IH Hnd) as [IH1 IH2].
      destruct (jsval_eqb (key m) k) eqn:E; simpl; [now split|].
      split.
      + constructor; [|exact IH1].
        intro Hin. apply Hnotin. apply in_map_iff in Hin.
        destruct Hin as [x [Hx Hin]]. apply filter_In in Hin.
        apply in_map_iff. exists x. tauto.
      + intros [Hk|Hin]; [|tauto].
        apply jsval_eqb_neq in E. contradiction. }
  destruct Hf as [Hnd Hnotin].
  apply NoDup_app; repeat split.
  - exact Hnd.
  - repeat constructor. simpl. tauto.
  - intros x Hx [Hk|[]]. subst. contradiction.
Qed.

Lemma saves_unique (ops : list (jsval * jsval * Z)) (st : Storage) :
  unique_keys st -> unique_keys (saves ops st).
Proof.
  revert st. induction ops as [|[[k v] t] ops IH]; intros st H; [exact H|].
  apply IH. now apply save_unique.
Qed.

Lemma load_saves (ops : list (jsval * jsval * Z)) (st : Storage) :
  load (saves ops st) =
  filter (fun m => negb (overwritten ops m)) (load st) ++ last_writes ops.
Proof.
  revert st. induction ops as [|[[k v] t] ops IH]; intro st.
  - simpl. rewrite app_nil_r. induction (load st) as [|m l IHl];
      simpl; [reflexivity | now rewrite <- IHl].
  - change (saves ((k, v, t) :: ops) st)
      with (saves ops (snd (save k v t st))).
    rewrite IH, load_save, filter_app, <- app_assoc. f_equal.
    + induction (load st) as [|m l IHl]; simpl; [reflexivity|].
      rewrite (jsval_eqb_sym k (key m)).
      destruct (jsval_eqb (key m) k); simpl; [exact IHl|].
      destruct (overwritten ops m); simpl; [exact IHl | now rewrite IHl].
    + simpl. unfold overwritten at 1. simpl.
      destruct (existsb _ ops); reflexivity.
Qed.

Lemma getContextString_save (k v : jsval) (t : Z) (st : Storage) :
  getContextString (snd (save k v t st)) =
  join newline (map bullet (load (snd (save k v t st)))).
Proof.
  unfold getContextString. rewrite load_save.
  rewrite length_app. simpl.
  replace (Nat.eqb _ 0) with false; [reflexivity|].
  symmetry. apply Nat.eqb_neq. lia.
Qed.

(** C7. After [save(key, v1)] then [save(key, v2)], [load()] holds
    exactly one fact for [key], with value [v2], whatever the store held
    before; a store built by saves alone holds at most one fact per key;
    and saves keep any store that has one fact per key that way. *)
Theorem save_last_write_wins :
  (forall (st : Storage) (k v1 v2 : jsval) (t1 t2 : Z),
      with_key k (load (snd (save k v2 t2 (snd (save k v1 t1 st)))))
      = [mkMemoryItem k v2 t2])
  /\ (forall (ops : list (jsval * jsval * Z)) (k : jsval),
        (List.length (with_key k (load (saves ops None))) <= 1)%nat)
  /\ (forall (ops : list (jsval * jsval * Z)) (st : Storage),
        unique_keys st -> unique_keys (saves ops st)).
Proof.
  split; [|split].
  - intros st k v1 v2 t1 t2.
    rewrite load_save, with_key_app, with_key_others. simpl.
    now rewrite jsval_eqb_refl.
  - intros ops k. apply with_key_le_1.
    apply (saves_unique ops None). constructor.
  - exact saves_unique.
Qed.

Lemma save_last_write_wins_witness :
  unique_keys (Some (Json [mkMemoryItem (JStr "city") (JStr "Oslo") 5]))
  /\ unique_keys
       (saves [(JStr "name", JStr "Ann", 10); (JStr "city", JStr "Rome", 11);
               (JStr "name", JStr "Bea", 12)]
              (Some (Json [mkMemoryItem (JStr "city") (JStr "Oslo") 5]))).
Proof.
  assert (H : unique_keys
                (Some (Json [mkMemoryItem (JStr "city") (JStr "Oslo") 5]))).
  { unfold unique_keys. simpl. constructor; [simpl; tauto | constructor]. }
  split; [exact H|].
  apply (proj2 (proj2 save_last_write_wins)). exact H.
Defined.

(** C10. [save] returns the new item stamped with the time of the call,
    drops every earlier entry of the key and puts the new item last; so
    after any run of saves [load()] lists what the store held before and
    was not overwritten, then each saved key once, in the order of the
    last save of each key, and the context string has its bullets in
    that order. *)
Theorem save_orders_by_latest_write :
  (forall (st : Storage) (k v : jsval) (t : Z),
      fst (save k v t st) = mkMemoryItem k v t
      /\ load (snd (save k v t st)) =
         filter (fun m => negb (jsval_eqb (key m) k)) (load st)
           ++ [mkMemoryItem k v t]
      /\ getContextString (snd (save k v t st)) =
         join newline (map bullet (load (snd (save k v t st)))))
  /\ (forall (ops : list (jsval * jsval * Z)) (st : Storage),
        load (saves ops st) =
        filter (fun m => negb (overwritten ops m)) (load st)
          ++ last_writes ops)
  /\ (let st := saves [(JStr "name", JStr "Ann", 10);
                       (JStr "city", JStr "Rome", 11);
                       (JStr "name", JStr "Bea", 12)] None in
      load st = [mkMemoryItem (JStr "city") (JStr "Rome") 11;
                 mkMemoryItem (JStr "name") (JStr "Bea") 12]
      /\ getContextString st =
         ("- [记忆-city]: Rome" ++ newline ++ "- [记忆-name]: Bea")%string).
Proof.
  split; [|split].
  - intros st k v t. split; [reflexivity|]. split.
    + apply load_save.
    + apply getContextString_save.
  - exact load_saves.
  - split; reflexivity.
Qed.

End MemoryStore.

(* ------------------------------------------------------------------ *)
(** ** Detection-token parser *)

Section StringFacts.

Lemma sapp_assoc (a b c : string) :
  ((a ++ b) ++ c)%string = (a ++ (b ++ c))%string.
Proof. induction a as [|x a IH]; simpl; [reflexivity | now rewrite IH]. Qed.

Lemma slength_app (a b : string) :
  String.length (a ++ b) = (String.length a + String.length b)%nat.
Proof. induction a as [|x a IH]; simpl; [reflexivity | now rewrite IH]. Qed.

Lemma sapp_inv_head (a b c : string) :
  (a ++ b)%string = (a ++ c)%string -> b = c.
Proof.
  induction a as [|x a IH]; simpl; intro H; [exact H|].
  injection H as H. auto.
Qed.

Lemma sapp_inv_length (a b x y : string) :
  (a ++ x)%string = (b ++ y)%string ->
  String.length a = String.length b -> a = b /\ x = y.
Proof.
  revert b. induction a as [|c a IH]; intros [|d b] H Hlen;
    simpl in *; try discriminate.
  - now split.
  - injection H as -> H. injection Hlen as Hlen.
    destruct (IH b H Hlen) as [-> ->]. now split.
Qed.

End StringFacts.

Section RegexFacts.
Import Regex.

Lemma literal_sound (lit s r : string) :
  literal lit s = Some r -> s = (lit ++ r)%string.
Proof.
  revert s. induction lit as [|a lit IH]; intros s H; simpl in *.
  - now injection H as ->.
  - destruct s as [|b s]; [discriminate|].
    destruct (Ascii.eqb a b) eqn:E; [|discriminate].
    apply Ascii.eqb_eq in E. subst b. f_equal. now apply IH.
Qed.

Lemma literal_complete (lit r : string) :
  literal lit (lit ++ r) = Some r.
Proof.
  induction lit as [|a lit IH]; simpl; [reflexivity|].
  now rewrite Ascii.eqb_refl.
Qed.

Lemma span_digits_sound (s ds r : string) :
  span_digits s = (ds, r) ->
  s = (ds ++ r)%string /\ digits_only ds = true.
Proof.
  revert ds r. induction s as [|c s IH]; intros ds r H; simpl in H.
  - injection H as <- <-. now split.
  - destruct (is_digit c) eqn:E.
    + destruct (span_digits s) as [ds' r'] eqn:Es.
      injection H as <- <-. destruct (IH ds' r' eq_refl) as [-> Hd].
      split; [reflexivity|]. simpl. now rewrite E.
    + injection H as <- <-. now split.
Qed.

Lemma span_digits_complete (ds : string) (c : ascii) (r : string) :
  digits_only ds = true -> is_digit c = false ->
  span_digits (ds ++ String c r) = (ds, String c r).
Proof.
  intros Hd Hc. induction ds as [|x ds IH]; simpl.
  - now rewrite Hc.
  - simpl in Hd. apply andb_prop in Hd. destruct Hd as [Hx Hd].
    now rewrite Hx, (IH Hd).
Qed.

Lemma digits_then_sound (sep s ds r : string) :
  digits_then sep s = Some (ds, r) ->
  s = (ds ++ sep ++ r)%string /\ number ds = true.
Proof.
  unfold digits_then. intro H.
  destruct (span_digits s) as [ds' r'] eqn:Es.
  apply span_digits_sound in Es. destruct Es as [-> Hd].
  destruct ds' as [|x ds']; [discriminate|].
  destruct (literal sep r') as [r''|] eqn:El; [|discriminate].
  injection H as <- <-. apply literal_sound in El. subst r'.
  now split.
Qed.

Lemma digits_then_complete (c : ascii) (sep ds r : string) :
  number ds = true -> is_digit c = false ->
  digits_then (String c sep) (ds ++ String c sep ++ r)
  = Some (ds, r).
Proof.
  intros Hn Hc. unfold digits_then.
  assert (Hd : digits_only ds = true) by (destruct ds; [discriminate | exact Hn]).
  change (String c sep ++ r)%string with (String c (sep ++ r)).
  rewrite (span_digits_complete ds c (sep ++ r) Hd Hc).
  destruct ds as [|x ds]; [discriminate|].
  change (String c (sep ++ r)) with (String c sep ++ r)%string.
  now rewrite literal_complete.
Qed.

Lemma token_app (m : Match) (rest : string) :
  (token m ++ rest)%string
  = ("[OBJECT:" ++ group1 m ++ coords_text m rest)%string.
Proof.
  unfold token, coords_text.
  repeat rewrite sapp_assoc. reflexivity.
Qed.

Lemma coordinates_sound (s g2 g3 g4 g5 r : string) :
  coordinates s = Some (g2, g3, g4, g5, r) ->
  s = coords_text (mkMatch "" g2 g3 g4 g5) r
  /\ (number g2 && number g3 && number g4 && number g5)%bool = true.
Proof.
  unfold coordinates, coords_text. intro H.
  destruct (literal ":" s) as [s1|] eqn:E1; [|discriminate].
  destruct (digits_then "," s1) as [[a s2]|] eqn:E2; [|discriminate].
  destruct (digits_then "," s2) as [[b s3]|] eqn:E3; [|discriminate].
  destruct (digits_then "," s3) as [[c s4]|] eqn:E4; [|discriminate].
  destruct (digits_then "]" s4) as [[d s5]|] eqn:E5; [|discriminate].
  injection H as <- <- <- <- <-.
  apply literal_sound in E1.
  apply digits_then_sound in E2, E3, E4, E5.
  destruct E2 as [-> H2], E3 as [-> H3], E4 as [-> H4], E5 as [-> H5].
  subst s. split; [reflexivity|]. simpl.
  now rewrite H2, H3, H4, H5.
Qed.

Lemma digits_then_char (c : ascii) (ds r : string) :
  number ds = true -> is_digit c = false ->
  digits_then (String c "") (ds ++ String c r) = Some (ds, r).
Proof. intros. now apply (digits_then_complete c "" ds r). Qed.

Lemma coordinates_complete (m : Match) (r : string) :
  (number (group2 m) && number (group3 m) && number (group4 m)
     && number (group5 m))%bool = true ->
  coordinates (coords_text m r)
  = Some (group2 m, group3 m, group4 m, group5 m, r).
Proof.
  intro H. repeat (apply andb_prop in H; destruct H as [H ?]).
  unfold coordinates, coords_text. simpl.
  repeat (rewrite digits_then_char by (assumption || reflexivity)).
  reflexivity.
Qed.

Lemma line_terminator_before_colon (post x : string) :
  post <> EmptyString ->
  line_terminator_here (post ++ String ":" x) = line_terminator_here post.
Proof.
  intro Hne. destruct post as [|c [|c2 [|c3 post]]]; [congruence | | |];
    simpl; destruct (Nat.eqb (nat_of_ascii c) 10 || Nat.eqb (nat_of_ascii c) 13)%bool;
    try reflexivity.
  - destruct x; simpl; rewrite ?Bool.andb_false_r; reflexivity.
  - simpl. now rewrite ?Bool.andb_false_r.
Qed.

Lemma lazy_label_eq (s : string) :
  lazy_label s =
  match coordinates s with
  | Some (g2, g3, g4, g5, rest) => Some (mkMatch "" g2 g3 g4 g5, rest)
  | None =>
      match s with
      | EmptyString => None
      | String c s' =>
          if line_terminator_here s then None
          else
            match lazy_label s' with
            | Some (m, rest) =>
                Some (mkMatch (String c (group1 m)) (group2 m) (group3 m)
                              (group4 m) (group5 m), rest)
            | None => None
            end
      end
  end.
Proof. destruct s; reflexivity. Qed.

Lemma lazy_label_sound (s : string) (m : Match) (r : string) :
  lazy_label s = Some (m, r) ->
  s = (group1 m ++ coords_text m r)%string /\ well_formed m = true.
Proof.
  revert m r. induction s as [|c s IH]; intros m r H;
    rewrite lazy_label_eq in H.
  - destruct (coordinates "") as [[[[[g2 g3] g4] g5] rest]|] eqn:Ec;
      [|discriminate].
    injection H as <- <-. apply coordinates_sound in Ec.
    destruct Ec as [Ec Hn]. split; [exact Ec | exact Hn].
  - destruct (coordinates (String c s)) as [[[[[g2 g3] g4] g5] rest]|] eqn:Ec.
    + injection H as <- <-. apply coordinates_sound in Ec.
      destruct Ec as [Ec Hn]. split; [exact Ec | exact Hn].
    + destruct (line_terminator_here (String c s)) eqn:El; [discriminate|].
      destruct (lazy_label s) as [[m0 r0]|] eqn:E0; [|discriminate].
      injection H as <- <-. destruct (IH m0 r0 eq_refl) as [Hs Hw].
      split.
      * simpl. f_equal. exact Hs.
      * unfold well_formed in *. simpl group1.
        change (group2 _) with (group2 m0). change (group3 _) with (group3 m0).
        change (group4 _) with (group4 m0). change (group5 _) with (group5 m0).
        repeat (apply andb_prop in Hw; destruct Hw as [Hw ?]).
        repeat (apply andb_true_intro; split); try assumption.
        change (dots_only (String c (group1 m0)))
          with (negb (line_terminator_here (String c (group1 m0)))
                && dots_only (group1 m0))%bool.
        rewrite Hs in El. unfold coords_text in El.
        change (String c (group1 m0 ++ ":" ++ ?x))%string
          with (String c (group1 m0) ++ String ":" x)%string in El.
        rewrite line_terminator_before_colon in El by discriminate.
        now rewrite El.
Qed.

Lemma lazy_label_complete (lbl : string) (m : Match) (r : string) :
  dots_only lbl = true ->
  (number (group2 m) && number (group3 m) && number (group4 m)
     && number (group5 m))%bool = true ->
  exists m' r',
    lazy_label (lbl ++ coords_text m r) = Some (m', r')
    /\ (String.length (group1 m') <= String.length lbl)%nat.
Proof.
  intros Hd Hn. induction lbl as [|c lbl IH].
  - change ("" ++ coords_text m r)%string with (coords_text m r).
    rewrite lazy_label_eq, (coordinates_complete m r Hn).
    eexists _, _. split; [reflexivity | simpl; lia].
  - rewrite lazy_label_eq.
    destruct (coordinates (String c lbl ++ coords_text m r))
      as [[[[[g2 g3] g4] g5] rest]|] eqn:Ec.
    + eexists _, _. split; [reflexivity | simpl; lia].
    + simpl in Hd. apply andb_prop in Hd. destruct Hd as [Hl Hd].
      change (String c lbl ++ coords_text m r)%string
        with (String c (lbl ++ coords_text m r)).
      replace (line_terminator_here (String c (lbl ++ coords_text m r)))
        with false.
      * destruct (IH Hd) as [m' [r' [E Hlen]]]. rewrite E.
        eexists _, _. split; [reflexivity | simpl; lia].
      * unfold coords_text.
        change (String c (lbl ++ ":" ++ ?x))%string
          with (String c lbl ++ String ":" x)%string.
        rewrite line_terminator_before_colon by discriminate.
        symmetry. now apply Bool.negb_true_iff.
Qed.

Lemma lazy_label_shortest (s : string) (m : Match) (r : string) :
  lazy_label s = Some (m, r) ->
  forall m' post', well_formed m' = true ->
    s = (group1 m' ++ coords_text m' post')%string ->
    (String.length (group1 m) <= String.length (group1 m'))%nat.
Proof.
  revert m r. induction s as [|c s IH]; intros m r H m' post' Hw Hs;
    rewrite lazy_label_eq in H.
  - destruct (coordinates "") as [[[[[g2 g3] g4] g5] rest]|];
      [|discriminate].
    injection H as <- <-. simpl. lia.
  - destruct (coordinates (String c s)) as [[[[[g2 g3] g4] g5] rest]|] eqn:Ec.
    + injection H as <- <-. simpl. lia.
    + destruct (line_terminator_here (String c s)); [discriminate|].
      destruct (lazy_label s) as [[m0 r0]|] eqn:E0; [|discriminate].
      injection H as <- <-. unfold well_formed in Hw.
      repeat (apply andb_prop in Hw; destruct Hw as [Hw ?]).
      destruct (group1 m') as [|c' l'] eqn:Eg.
      * simpl in Hs. rewrite Hs, coordinates_complete in Ec; [discriminate|].
        repeat (apply andb_true_intro; split); assumption.
      * simpl in Hs. injection Hs as -> Hs.
        simpl in Hw. apply andb_prop in Hw. destruct Hw as [_ Hw].
        assert (Hle := IH m0 r0 eq_refl (relabel l' m') post').
        simpl. apply le_n_S. apply Hle.
        -- unfold well_formed, relabel. simpl.
           repeat (apply andb_true_intro; split); assumption.
        -- exact Hs.
Qed.

Lemma well_formed_parts (m : Match) :
  well_formed m = true ->
  dots_only (group1 m) = true
  /\ (number (group2 m) && number (group3 m) && number (group4 m)
        && number (group5 m))%bool = true.
Proof.
  unfold well_formed. intro H.
  repeat (apply andb_prop in H; destruct H as [H ?]).
  split; [assumption|].
  repeat (apply andb_true_intro; split); assumption.
Qed.

Lemma match_here_sound (s : string) (m : Match) (r : string) :
  match_here s = Some (m, r) ->
  s = (token m ++ r)%string /\ well_formed m = true.
Proof.
  unfold match_here. intro H.
  destruct (literal "[OBJECT:" s) as [s'|] eqn:El; [|discriminate].
  apply literal_sound in El. apply lazy_label_sound in H.
  destruct H as [Hs Hw]. split; [|exact Hw].
  now rewrite token_app, El, Hs.
Qed.

Lemma match_here_complete (s : string) :
  starts_with_token s -> exists m r, match_here s = Some (m, r).
Proof.
  intros [m [post [Hw ->]]]. apply well_formed_parts in Hw.
  destruct Hw as [Hd Hn].
  destruct (lazy_label_complete (group1 m) m post Hd Hn) as [m' [r' [E _]]].
  exists m', r'. unfold match_here.
  now rewrite token_app, literal_complete.
Qed.

Lemma match_here_shortest (s : string) (m : Match) (r : string) :
  match_here s = Some (m, r) ->
  forall m' post', well_formed m' = true ->
    s = (token m' ++ post')%string ->
    (String.length (group1 m) <= String.length (group1 m'))%nat.
Proof.
  unfold match_here. intros H m' post' Hw Hs.
  rewrite Hs, token_app, literal_complete in H.
  now apply (lazy_label_shortest _ m r H m' post').
Qed.

Lemma exec_eq (s : string) :
  exec s =
  match match_here s with
  | Some r => Some r
  | None =>
      match s with
      | EmptyString => None
      | String _ s' => exec s'
      end
  end.
Proof. destruct s; reflexivity. Qed.

Lemma exec_none (s : string) : exec s = None -> token_free s.
Proof.
  induction s as [|c s IH]; intro H; rewrite exec_eq in H;
    destruct (match_here _) as [x|] eqn:Em; try discriminate;
    intros pre post Hsplit Hstart.
  - destruct pre; [|discriminate]. simpl in Hsplit. subst post.
    apply match_here_complete in Hstart.
    destruct Hstart as [m [r E]]. congruence.
  - destruct pre as [|c' pre]; simpl in Hsplit.
    + subst post. apply match_here_complete in Hstart.
      destruct Hstart as [m [r E]]. congruence.
    + injection Hsplit as -> ->. exact (IH H pre post eq_refl Hstart).
Qed.

Lemma exec_sound (s : string) (m : Match) (r : string) :
  exec s = Some (m, r) ->
  exists pre,
    s = (pre ++ token m ++ r)%string
    /\ well_formed m = true
    /\ (forall pre1 pre2, pre = (pre1 ++ pre2)%string -> pre2 <> EmptyString ->
          ~ starts_with_token (pre2 ++ token m ++ r)%string)
    /\ (forall m' post', well_formed m' = true ->
          (token m ++ r)%string = (token m' ++ post')%string ->
          (String.length (group1 m) <= String.length (group1 m'))%nat).
Proof.
  induction s as [|c s IH]; intro H; rewrite exec_eq in H;
    destruct (match_here _) as [[m0 r0]|] eqn:Em; try discriminate.
  - injection H as -> ->. destruct (match_here_sound _ _ _ Em) as [Hs Hw].
    exists EmptyString. repeat split; try assumption.
    + intros pre1 pre2 Hp Hne. destruct pre1; [|discriminate].
      simpl in Hp. congruence.
    + intros m' post' Hw' Ht. rewrite <- Hs in Ht.
      exact (match_here_shortest _ _ _ Em m' post' Hw' Ht).
  - destruct (IH H) as [pre [Hs [Hw [Hleft Hshort]]]].
    exists (String c pre). repeat split; try assumption.
    + simpl. now f_equal.
    + intros pre1 pre2 Hp Hne Hstart.
      destruct pre1 as [|c1 pre1]; simpl in Hp.
      * subst pre2.
        change (String c pre ++ token m ++ r)%string
          with (String c (pre ++ token m ++ r)) in Hstart.
        rewrite <- Hs in Hstart.
        apply match_here_complete in Hstart.
        destruct Hstart as [m1 [r1 E]]. congruence.
      * injection Hp as _ Hp. exact (Hleft pre1 pre2 Hp Hne Hstart).
Qed.

Lemma exec_shrinks (s : string) (m : Match) (r : string) :
  exec s = Some (m, r) -> (String.length r < String.length s)%nat.
Proof.
  intro H. destruct (exec_sound s m r H) as [pre [-> _]].
  rewrite token_app. unfold coords_text.
  repeat rewrite slength_app. simpl. lia.
Qed.

Lemma exec_loop_fuel (n k : nat) (s : string) :
  (String.length s < n)%nat -> (String.length s < k)%nat ->
  exec_loop n s = exec_loop k s.
Proof.
  revert k s. induction n as [|n IH]; intros k s Hn Hk; [lia|].
  destruct k as [|k]; [lia|]. simpl.
  destruct (exec s) as [[m r]|] eqn:E; [|reflexivity].
  apply exec_shrinks in E. f_equal. apply IH; lia.
Qed.

(** The loop, without its fuel. *)
Lemma exec_all_eq (txt : string) :
  exec_all txt =
  match exec txt with
  | Some (m, rest) => m :: exec_all rest
  | None => []
  end.
Proof.
  unfold exec_all at 1. simpl.
  destruct (exec txt) as [[m r]|] eqn:E; [|reflexivity].
  f_equal. apply exec_loop_fuel; [|lia].
  apply exec_shrinks in E. lia.
Qed.

Lemma scan_exec_all (txt : string) : scan txt (exec_all txt).
Proof.
  remember (String.length txt) as n eqn:Hn. revert txt Hn.
  induction n as [n IH] using (well_founded_induction lt_wf).
  intros txt Hn. rewrite exec_all_eq.
  destruct (exec txt) as [[m r]|] eqn:E.
  - assert (Hlt := exec_shrinks _ _ _ E).
    destruct (exec_sound _ _ _ E) as [pre [Hs [Hw [Hleft Hshort]]]].
    rewrite Hs. apply scan_next; try assumption.
    apply (IH (String.length r)); [lia | reflexivity].
  - apply scan_done. now apply exec_none.
Qed.

Lemma exec_all_token_free (txt : string) :
  token_free txt -> exec_all txt = [].
Proof.
  intro Hfree. rewrite exec_all_eq.
  destruct (exec txt) as [[m r]|] eqn:E; [|reflexivity].
  destruct (exec_sound _ _ _ E) as [pre [Hs [Hw _]]].
  exfalso. apply (Hfree pre (token m ++ r)%string Hs).
  now exists m, r.
Qed.

(** Under the conditions of [scan_next] the pattern matches the token
    itself where it stands, and [exec] finds it there. *)
Lemma match_here_scanned (m : Match) (rest : string) :
  well_formed m = true ->
  (forall m' post', well_formed m' = true ->
                    (token m ++ rest)%string = (token m' ++ post')%string ->
                    (String.length (group1 m) <= String.length (group1 m'))%nat) ->
  match_here (token m ++ rest) = Some (m, rest).
Proof.
  intros Hw Hshort.
  destruct (match_here_complete (token m ++ rest)) as [m' [r' E]];
    [now exists m, rest|].
  destruct (match_here_sound _ _ _ E) as [Hs Hw'].
  assert (H1 := Hshort m' r' Hw' Hs).
  assert (H2 := match_here_shortest _ _ _ E m rest Hw eq_refl).
  rewrite !token_app in Hs. apply sapp_inv_head in Hs.
  apply sapp_inv_length in Hs; [|lia]. destruct Hs as [Hg Hc].
  apply well_formed_parts in Hw, Hw'.
  assert (C1 := coordinates_complete m rest (proj2 Hw)).
  assert (C2 := coordinates_complete m' r' (proj2 Hw')).
  rewrite Hc, C2 in C1. injection C1 as E2 E3 E4 E5 Er.
  rewrite E. f_equal. f_equal; [|exact Er].
  destruct m, m'; simpl in *. congruence.
Qed.

Lemma exec_scanned (pre : string) (m : Match) (rest : string) :
  well_formed m = true ->
  (forall pre1 pre2, pre = (pre1 ++ pre2)%string -> pre2 <> EmptyString ->
                     ~ starts_with_token (pre2 ++ token m ++ rest)%string) ->
  (forall m' post', well_formed m' = true ->
                    (token m ++ rest)%string = (token m' ++ post')%string ->
                    (String.length (group1 m) <= String.length (group1 m'))%nat) ->
  exec (pre ++ token m ++ rest) = Some (m, rest).
Proof.
  intros Hw Hleft Hshort. induction pre as [|c pre IH].
  - change ("" ++ token m ++ rest)%string with (token m ++ rest)%string.
    rewrite exec_eq. now rewrite (match_here_scanned m rest Hw Hshort).
  - rewrite exec_eq.
    destruct (match_here (String c pre ++ token m ++ rest))
      as [[m1 r1]|] eqn:E.
    + exfalso. apply (Hleft EmptyString (String c pre) eq_refl);
        [discriminate|].
      destruct (match_here_sound _ _ _ E) as [Hs Hw1].
      now exists m1, r1.
    + change (String c pre ++ token m ++ rest)%string
        with (String c (pre ++ token m ++ rest)).
      apply IH. intros pre1 pre2 Hp Hne.
      apply (Hleft (String c pre1) pre2); [|exact Hne].
      simpl. now f_equal.
Qed.

(** The scan of a text is unique: it is what the loop computes. *)
Lemma scan_unique (txt : string) (ms : list Match) :
  scan txt ms -> ms = exec_all txt.
Proof.
  induction 1 as [txt Hfree | pre m rest ms Hw Hleft Hshort _ IH].
  - symmetry. now apply exec_all_token_free.
  - rewrite exec_all_eq, (exec_scanned pre m rest Hw Hleft Hshort).
    now f_equal.
Qed.

End RegexFacts.

Section Parser.
Import Regex App.

Lemma parseARObjects_appends (txt : string) (now : Z) (s : State) :
  parseARObjects txt now s
  = set_arOverlays (arOverlays s ++ newOverlays txt now) s.
Proof.
  unfold parseARObjects. destruct (newOverlays txt now) as [|o l].
  - simpl. rewrite app_nil_r. destruct s; reflexivity.
  - reflexivity.
Qed.

(** C8. What [parseARObjects] adds to the overlays is decided by the
    text alone (with the clock reading that stamps them), whatever the
    state: one overlay for each match of the token grammar, the matches
    being taken left to right without overlap, which fixes them; a text in
    which no token starts yields none, and
    ["Hello [OBJECT:cup:10,20,30,40] world"] yields the single overlay
    [cup] with box [10,20,30,40]. *)
Theorem parseARObjects_one_overlay_per_match :
  (forall (txt : string) (now : Z) (s : State),
      parseARObjects txt now s
      = set_arOverlays (arOverlays s ++ newOverlays txt now) s)
  /\ (forall txt : string, exists ms, scan txt ms)
  /\ (forall (txt : string) (now : Z) (ms : list Match),
        scan txt ms -> newOverlays txt now = map (overlay_of now) ms)
  /\ (forall (txt : string) (now : Z),
        token_free txt -> newOverlays txt now = [])
  /\ (forall now : Z,
        newOverlays "Hello [OBJECT:cup:10,20,30,40] world" now
        = [mkAROverlayData "cup" (10, 20, 30, 40) "#22d3ee" now]).
Proof.
  split; [|split; [|split; [|split]]].
  - exact parseARObjects_appends.
  - intro txt. exists (exec_all txt). apply scan_exec_all.
  - intros txt now ms H. apply scan_unique in H. now subst ms.
  - intros txt now H. unfold newOverlays.
    now rewrite (exec_all_token_free txt H).
  - intro now. reflexivity.
Qed.

Lemma parseARObjects_one_overlay_per_match_witness :
  token_free "Hello OBJECT:cup:10,20,30,40] world"
  /\ newOverlays "Hello OBJECT:cup:10,20,30,40] world" 7 = [].
Proof.
  assert (H : token_free "Hello OBJECT:cup:10,20,30,40] world")
    by (apply exec_none; reflexivity).
  split; [exact H|].
  apply (proj1 (proj2 (proj2 (proj2 parseARObjects_one_overlay_per_match)))).
  exact H.
Defined.

End Parser.

(* ------------------------------------------------------------------ *)
(** ** Session manager *)

Section SessionFacts.
Import App.

Variable decode : string -> option string.
Variable decodeAudioData : string -> option Z.

Local Abbreviation onmessage := (App.onmessage decode).
Local Abbreviation playAudioResponse_begin := (App.playAudioResponse_begin decode).
Local Abbreviation playAudioResponse_resume :=
  (App.playAudioResponse_resume decodeAudioData).
Local Abbreviation playAudioResponse :=
  (App.playAudioResponse decode decodeAudioData).
Local Abbreviation step := (App.step decode decodeAudioData).
Local Abbreviation run := (App.run decode decodeAudioData).
Local Abbreviation reachable := (App.reachable decode decodeAudioData).

(** *** Staleness guard *)

(** C1. A session callback ([onopen], [onmessage], [onclose]) whose
    attempt identifier is not the current one returns at once and leaves
    the whole state as it was: flags, playback clock, sources, overlays,
    logs and timers. *)
Theorem stale_callbacks_ignored
        (s : State) (attemptId : Z) (msg : LiveServerMessage)
        (env : MessageEnv) :
  connectionAttemptIdRef s <> attemptId ->
  onopen attemptId s = s
  /\ onmessage attemptId msg env s = s
  /\ onclose attemptId s = s.
Proof.
  intro H. apply Z.eqb_neq in H.
  unfold onopen, App.onmessage, onclose. rewrite H. simpl. auto.
Qed.

(** *** Playback scheduler *)

Lemma nth_error_snoc {A : Type} (l : list A) (x : A) :
  nth_error (l ++ [x]) (List.length l) = Some x.
Proof. induction l as [|y l IH]; simpl; [reflexivity | exact IH]. Qed.

Lemma remove_nth_snoc {A : Type} (l : list A) (x : A) :
  remove_nth (List.length l) (l ++ [x]) = l.
Proof. induction l as [|y l IH]; simpl; [reflexivity | now rewrite IH]. Qed.




(** *** What the handlers leave alone *)

Lemma addLog_cores (msg : string) (src : LogSource) (ty : LogType)
      (s : State) :
  timer_core (addLog msg src ty s) = timer_core s
  /\ audio_core (addLog msg src ty s) = audio_core s.
Proof. split; reflexivity. Qed.

Lemma begin_cores (data : string) (ctxTime : Z) (s : State) :
  timer_core (playAudioResponse_begin data ctxTime s) = timer_core s
  /\ audio_core (playAudioResponse_begin data ctxTime s) = audio_core s.
Proof.
  unfold App.playAudioResponse_begin.
  destruct (decode data); split; reflexivity.
Qed.

Lemma parseARObjects_cores (txt : string) (now : Z) (s : State) :
  timer_core (parseARObjects txt now s) = timer_core s
  /\ audio_core (parseARObjects txt now s) = audio_core s.
Proof. rewrite parseARObjects_appends. split; reflexivity. Qed.

Lemma tool_result_cores (fc : FunctionCall) (now : Z) (s s' : State)
      (r : string) :
  tool_result fc now s = Some (r, s') ->
  timer_core s' = timer_core s /\ audio_core s' = audio_core s
  /\ toolResponses s' = toolResponses s.
Proof.
  unfold tool_result. intro H.
  destruct (jsval_eqb (fc_name fc) (JStr "setReminder"));
    destruct (jsval_eqb (fc_name fc) (JStr "toggleSmartHome"));
    destruct (jsval_eqb (fc_name fc) (JStr "saveToLongTermMemory"));
    destruct (fc_args fc); try discriminate;
    injection H as <- <-; repeat split; reflexivity.
Qed.

Lemma handleToolCalls_cores (calls : list FunctionCall) (a now : Z)
      (s : State) :
  timer_core (state_of (handleToolCalls calls a now s)) = timer_core s
  /\ audio_core (state_of (handleToolCalls calls a now s)) = audio_core s.
Proof.
  revert s. induction calls as [|fc calls IH]; intro s; simpl;
    [split; reflexivity|].
  unfold handleFunctionCall.
  destruct (tool_result fc now _) as [[r s1]|] eqn:E.
  - apply tool_result_cores in E. destruct E as [Et [Ea _]].
    destruct (IH (sendToolResponse a
                    (mkFunctionResponse (fc_id fc) (fc_name fc) r) s1))
      as [IHt IHa].
    rewrite IHt, IHa. split.
    + change (timer_core (sendToolResponse _ _ s1)) with (timer_core s1).
      rewrite Et. reflexivity.
    + change (audio_core (sendToolResponse _ _ s1)) with (audio_core s1).
      rewrite Ea. reflexivity.
  - split; reflexivity.
Qed.

Lemma parts_cores (ps : list Part) (now : Z) (s : State) :
  let s' := fold_left
              (fun acc p =>
                 match truthy (text p) with
                 | Some t => parseARObjects t now acc
                 | None => acc
                 end) ps s in
  timer_core s' = timer_core s /\ audio_core s' = audio_core s.
Proof.
  revert s. induction ps as [|p ps IH]; intro s; simpl;
    [split; reflexivity|].
  destruct (truthy (text p)) as [t|].
  - destruct (IH (parseARObjects t now s)) as [Ht Ha].
    destruct (parseARObjects_cores t now s) as [Ht' Ha'].
    simpl in Ht, Ha. rewrite Ht, Ha, Ht', Ha'. split; reflexivity.
  - apply IH.
Qed.

(** [onmessage] of the current attempt: the payloads first, which touch
    neither the timers nor the sources, then the interruption. *)
Lemma onmessage_current (s : State) (msg : LiveServerMessage)
      (env : MessageEnv) :
  exists mid,
    timer_core mid = timer_core s /\ audio_core mid = audio_core s
    /\ onmessage (connectionAttemptIdRef s) msg env s =
       if interrupted msg
       then stopAllAudio (addLog "用户打断" JARVIS warning mid)
       else mid.
Proof.
  unfold App.onmessage. rewrite Z.eqb_refl. cbv zeta. simpl negb. cbv iota.
  eexists. split; [|split; [|reflexivity]].
  - destruct (toolCall msg) as [calls|];
      [rewrite (proj1 (handleToolCalls_cores _ _ _ _))|];
      (destruct (parts msg) as [ps|];
       [rewrite (proj1 (parts_cores ps (me_now env) _))|]);
      destruct (truthy (audioData msg));
      try destruct (is_some (audioContextRef s) && analyserRef s)%bool;
      try apply begin_cores; reflexivity.
  - destruct (toolCall msg) as [calls|];
      [rewrite (proj2 (handleToolCalls_cores _ _ _ _))|];
      (destruct (parts msg) as [ps|];
       [rewrite (proj2 (parts_cores ps (me_now env) _))|]);
      destruct (truthy (audioData msg));
      try destruct (is_some (audioContextRef s) && analyserRef s)%bool;
      try apply begin_cores; reflexivity.
Qed.

(** *** Interruption *)

(** C4. An interruption signal on the current attempt stops every active
    source, leaves the set of sources empty and puts the playback clock
    at zero, however many sources there were. *)
Theorem interruption_stops_all_audio
        (s : State) (msg : LiveServerMessage) (env : MessageEnv) :
  interrupted msg = true ->
  let s' := onmessage (connectionAttemptIdRef s) msg env s in
  sourcesRef s' = []
  /\ nextStartTimeRef s' = 0
  /\ stopped s' = stopped s ++ map src_id (sourcesRef s)
  /\ (forall src, In src (sourcesRef s) -> In (src_id src) (stopped s')).
Proof.
  intros Hi s'. subst s'.
  destruct (onmessage_current s msg env) as [mid [_ [Ha E]]].
  rewrite E, Hi. injection Ha as Hsrc Hstop.
  assert (Hs : stopped (stopAllAudio (addLog "用户打断" JARVIS warning mid))
               = stopped s ++ map src_id (sourcesRef s)).
  { simpl. now rewrite Hsrc, Hstop. }
  repeat split; try reflexivity; try exact Hs.
  intros src Hin. rewrite Hs. apply in_or_app. right.
  now apply in_map.
Qed.

(** *** Disconnect *)


(** *** Tool calls *)

Lemma handleFunctionCall_answerable (a now : Z) (fc : FunctionCall)
      (s : State) :
  answerable fc = true ->
  exists s',
    handleFunctionCall a now fc s = Returned s'
    /\ toolResponses s' = toolResponses s ++ [reply a fc].
Proof.
  unfold answerable, recognised, handleFunctionCall, tool_result, reply,
    reply_text.
  intro H.
  destruct (jsval_eqb (fc_name fc) (JStr "setReminder"));
    destruct (jsval_eqb (fc_name fc) (JStr "toggleSmartHome"));
    destruct (jsval_eqb (fc_name fc) (JStr "saveToLongTermMemory"));
    destruct (fc_args fc) as [args|]; try discriminate H;
    eexists; split; reflexivity.
Qed.

Lemma handleFunctionCall_throws (a now : Z) (fc : FunctionCall)
      (s : State) :
  answerable fc = false ->
  exists s',
    handleFunctionCall a now fc s = Threw s'
    /\ toolResponses s' = toolResponses s.
Proof.
  unfold answerable, recognised, handleFunctionCall, tool_result.
  intro H.
  destruct (jsval_eqb (fc_name fc) (JStr "setReminder"));
    destruct (jsval_eqb (fc_name fc) (JStr "toggleSmartHome"));
    destruct (jsval_eqb (fc_name fc) (JStr "saveToLongTermMemory"));
    destruct (fc_args fc) as [args|]; try discriminate H;
    eexists; split; reflexivity.
Qed.


(** The first call that throws ends the loop: the calls before it are
    answered, that call and the ones after it are not. *)
Lemma tool_calls_stop_at_throw
      (before after : list FunctionCall) (fc : FunctionCall)
      (attemptId now : Z) (s : State) :
  forallb answerable before = true ->
  answerable fc = false ->
  exists s',
    handleToolCalls (before ++ fc :: after) attemptId now s = Threw s'
    /\ toolResponses s' = toolResponses s ++ map (reply attemptId) before.
Proof.
  intros Hb Hfc. revert s.
  induction before as [|b before IH]; intro s; simpl.
  - destruct (handleFunctionCall_throws attemptId now fc s Hfc)
      as [s' [E R]].
    rewrite E. exists s'. split; [reflexivity|].
    now rewrite R, app_nil_r.
  - simpl in Hb. apply andb_prop in Hb. destruct Hb as [Hb1 Hb2].
    destruct (handleFunctionCall_answerable attemptId now b s Hb1)
      as [s1 [E1 R1]].
    rewrite E1. destruct (IH Hb2 s1) as [s' [E' R']].
    exists s'. split; [exact E'|].
    rewrite R', R1, <- app_assoc. reflexivity.
Qed.

(** *** Attempt identifiers *)

(** [connect] stores the reading of [Date.now()] as the current attempt. *)
Lemma connect_mints_clock_reading
      (audioId videoId : string) (env : ConnectEnv) (s : State) :
  connectionAttemptIdRef (connect audioId videoId env s) = ce_now env
  /\ minted (connect audioId videoId env s) = minted s ++ [ce_now env].
Proof.
  unfold connect.
  destruct (ce_apiKey env), (ce_seenConnected env), (ce_audioSetupOk env),
    (ce_liveConnectError env); split; reflexivity.
Qed.

(** *** Timers *)

Lemma timers_wf_core (s s' : State) :
  timer_core s' = timer_core s -> timers_wf s -> timers_wf s'.
Proof.
  unfold timer_core. intros E [Hn Hd Hr Hrc Hf].
  injection E as Et Eh Er Ef _ _ _ _ _.
  constructor; rewrite ?Et, ?Eh, ?Er, ?Ef; assumption.
Qed.

Lemma timers_wf_clearTimer (h : nat) (s : State) :
  timers_wf s -> timers_wf (clearTimer h s).
Proof.
  intros [Hn Hd Hr Hrc Hf]. constructor; simpl.
  - exact Hn.
  - clear - Hd. induction (timers s) as [|t l IH]; simpl; [constructor|].
    inversion Hd as [|? ? Hnotin Hnd]; subst.
    destruct (negb (Nat.eqb (handle t) h)); simpl; [|auto].
    constructor; [|auto].
    intro Hin. apply Hnotin. apply in_map_iff in Hin.
    destruct Hin as [x [Hx Hin]]. apply filter_In in Hin.
    apply in_map_iff. exists x. tauto.
  - intros t Hin. apply filter_In in Hin. apply Hr. tauto.
  - intros t Hin. apply filter_In in Hin. apply Hrc. tauto.
  - intros t Hin. apply filter_In in Hin. apply Hf. tauto.
Qed.

Lemma timers_wf_clear_if_set (r : option nat) (s : State) :
  timers_wf s -> timers_wf (clear_if_set r s).
Proof.
  destruct r as [[|h]|]; simpl; auto using timers_wf_clearTimer.
Qed.

Lemma clear_if_set_timers (r : option nat) (s : State) (t : Timer) :
  In t (timers (clear_if_set r s)) ->
  In t (timers s) /\ (forall h, r = Some (S h) -> handle t <> S h).
Proof.
  destruct r as [[|h]|]; simpl; intro Hin.
  - split; [exact Hin | discriminate].
  - apply filter_In in Hin. destruct Hin as [Hin Hne].
    split; [exact Hin|]. intros h' E. injection E as <-.
    apply Bool.negb_true_iff, Nat.eqb_neq in Hne. exact Hne.
  - split; [exact Hin | discriminate].
Qed.

(** Once the ref of a kind of timer has been cleared, no timer of that
    kind is pending. *)
Lemma cleared_reconnect (s : State) (t : Timer) :
  timers_wf s ->
  In t (timers (clear_if_set (reconnectTimeoutRef s) s)) ->
  kind t <> ReconnectTimeout.
Proof.
  intros Hwf Hin Hk. apply clear_if_set_timers in Hin.
  destruct Hin as [Hin Hne].
  assert (Hr := wf_reconnect s Hwf t Hin Hk).
  destruct (wf_range s Hwf t Hin) as [Hpos _].
  destruct (handle t) as [|h] eqn:Eh; [lia|].
  now apply (Hne h).
Qed.

Lemma cleared_frames (s : State) (t : Timer) :
  timers_wf s ->
  In t (timers (clear_if_set (frameIntervalRef s) s)) ->
  kind t <> FrameInterval.
Proof.
  intros Hwf Hin Hk. apply clear_if_set_timers in Hin.
  destruct Hin as [Hin Hne].
  assert (Hr := wf_frames s Hwf t Hin Hk).
  destruct (wf_range s Hwf t Hin) as [Hpos _].
  destruct (handle t) as [|h] eqn:Eh; [lia|].
  now apply (Hne h).
Qed.

Lemma fresh_handle (s : State) :
  timers_wf s -> ~ In (nextHandle s) (map handle (timers s)).
Proof.
  intros Hwf Hin. apply in_map_iff in Hin. destruct Hin as [t [E Hin]].
  destruct (wf_range s Hwf t Hin). lia.
Qed.

Lemma NoDup_snoc {A : Type} (l : list A) (x : A) :
  NoDup l -> ~ In x l -> NoDup (l ++ [x]).
Proof.
  intros Hnd Hnotin. apply NoDup_app; repeat split.
  - exact Hnd.
  - repeat constructor. simpl. tauto.
  - intros y Hy [<-|[]]. contradiction.
Qed.

Lemma timers_wf_schedule_reconnect (d : Z) (s : State) :
  timers_wf s ->
  (forall t, In t (timers s) -> kind t <> ReconnectTimeout) ->
  timers_wf (set_reconnectTimeoutRef (Some (nextHandle s))
               (setTimer ReconnectTimeout d s)).
Proof.
  intros Hwf Hnone. assert (Hfresh := fresh_handle s Hwf).
  destruct Hwf as [Hn Hd Hr Hrc Hf]. constructor; simpl.
  - lia.
  - rewrite map_app. simpl. now apply NoDup_snoc.
  - intros t Hin. apply in_app_or in Hin. destruct Hin as [Hin|[<-|[]]].
    + destruct (Hr t Hin). lia.
    + simpl. lia.
  - intros t Hin Hk. apply in_app_or in Hin.
    destruct Hin as [Hin|[<-|[]]]; [|reflexivity].
    exfalso. exact (Hnone t Hin Hk).
  - intros t Hin Hk. apply in_app_or in Hin.
    destruct Hin as [Hin|[<-|[]]]; [|discriminate].
    exact (Hf t Hin Hk).
Qed.

Lemma timers_wf_schedule_frames (d : Z) (s : State) :
  timers_wf s ->
  (forall t, In t (timers s) -> kind t <> FrameInterval) ->
  timers_wf (set_frameIntervalRef (Some (nextHandle s))
               (setTimer FrameInterval d s)).
Proof.
  intros Hwf Hnone. assert (Hfresh := fresh_handle s Hwf).
  destruct Hwf as [Hn Hd Hr Hrc Hf]. constructor; simpl.
  - lia.
  - rewrite map_app. simpl. now apply NoDup_snoc.
  - intros t Hin. apply in_app_or in Hin. destruct Hin as [Hin|[<-|[]]].
    + destruct (Hr t Hin). lia.
    + simpl. lia.
  - intros t Hin Hk. apply in_app_or in Hin.
    destruct Hin as [Hin|[<-|[]]]; [|discriminate].
    exact (Hrc t Hin Hk).
  - intros t Hin Hk. apply in_app_or in Hin.
    destruct Hin as [Hin|[<-|[]]]; [|reflexivity].
    exfalso. exact (Hnone t Hin Hk).
Qed.

Lemma timers_wf_same (s s' : State) :
  timers s' = timers s -> nextHandle s' = nextHandle s ->
  reconnectTimeoutRef s' = reconnectTimeoutRef s ->
  frameIntervalRef s' = frameIntervalRef s ->
  timers_wf s -> timers_wf s'.
Proof.
  intros Et Eh Er Ef [Hn Hd Hr Hrc Hf].
  constructor; rewrite ?Et, ?Eh, ?Er, ?Ef; assumption.
Qed.

Lemma timers_wf_connect (audioId videoId : string) (env : ConnectEnv)
      (s : State) :
  timers_wf s -> timers_wf (connect audioId videoId env s).
Proof.
  apply timers_wf_same; unfold connect;
    destruct (ce_apiKey env), (ce_seenConnected env),
      (ce_audioSetupOk env), (ce_liveConnectError env); reflexivity.
Qed.

Lemma timers_wf_cleanup (s : State) :
  timers_wf s -> timers_wf (cleanup s).
Proof.
  intro Hwf.
  apply (timers_wf_same (clear_if_set (frameIntervalRef s) s)).
  - unfold cleanup. simpl. destruct (frameIntervalRef s) as [[|h]|]; reflexivity.
  - unfold cleanup. simpl. destruct (frameIntervalRef s) as [[|h]|]; reflexivity.
  - unfold cleanup. simpl. destruct (frameIntervalRef s) as [[|h]|]; reflexivity.
  - unfold cleanup. simpl. destruct (frameIntervalRef s) as [[|h]|]; reflexivity.
  - now apply timers_wf_clear_if_set.
Qed.

Lemma timers_wf_disconnect (s : State) :
  timers_wf s -> timers_wf (disconnect s).
Proof.
  intro Hwf. unfold disconnect. cbv zeta.
  eapply timers_wf_core; [apply addLog_cores|].
  apply timers_wf_cleanup, timers_wf_clear_if_set.
  revert Hwf. apply timers_wf_same; reflexivity.
Qed.

Lemma timers_wf_startVideoStreaming (s : State) :
  timers_wf s -> timers_wf (startVideoStreaming s).
Proof.
  intro Hwf. unfold startVideoStreaming. cbv zeta.
  apply timers_wf_schedule_frames.
  - now apply timers_wf_clear_if_set.
  - intros t Hin. now apply (cleared_frames s).
Qed.

Lemma timers_wf_onclose (a : Z) (s : State) :
  timers_wf s -> timers_wf (onclose a s).
Proof.
  intro Hwf. unfold onclose.
  destruct (negb (Z.eqb (connectionAttemptIdRef s) a)); [exact Hwf|].
  destruct (negb (isUserDisconnectingRef s)).
  - cbv zeta.
    set (s1 := set_isStreamingRef false
                 (addLog "链路波动，正在重新校准..." SYSTEM warning s)).
    assert (Hwf1 : timers_wf s1)
      by (revert Hwf; apply timers_wf_same; reflexivity).
    set (s2 := clear_if_set (frameIntervalRef s1) s1).
    assert (Hwf2 : timers_wf s2) by now apply timers_wf_clear_if_set.
    apply timers_wf_schedule_reconnect.
    + now apply timers_wf_clear_if_set.
    + intros t Hin. now apply (cleared_reconnect s2).
  - apply timers_wf_cleanup. revert Hwf.
    apply timers_wf_same; reflexivity.
Qed.

Lemma onmessage_timer_core (a : Z) (msg : LiveServerMessage)
      (env : MessageEnv) (s : State) :
  timer_core (onmessage a msg env s) = timer_core s.
Proof.
  destruct (Z.eqb (connectionAttemptIdRef s) a) eqn:E.
  - apply Z.eqb_eq in E. subst a.
    destruct (onmessage_current s msg env) as [mid [Ht [_ Eq]]].
    rewrite Eq. destruct (interrupted msg); [|exact Ht].
    change (timer_core (stopAllAudio (addLog "用户打断" JARVIS warning mid)))
      with (timer_core mid). exact Ht.
  - unfold App.onmessage. now rewrite E.
Qed.

Lemma resume_timer_core (i : nat) (s : State) :
  timer_core (playAudioResponse_resume i s) = timer_core s.
Proof.
  unfold App.playAudioResponse_resume.
  destruct (nth_error (pendingDecodes s) i) as [decoded|]; [|reflexivity].
  cbv zeta. simpl. destruct (decodeAudioData decoded); reflexivity.
Qed.

Lemma timers_wf_fire (h : nat) (env : ConnectEnv) (s : State) :
  timers_wf s -> timers_wf (fire h env s).
Proof.
  intro Hwf. unfold fire.
  destruct (find _ (timers s)) as [t|]; [|exact Hwf].
  destruct (kind t); [|exact Hwf].
  now apply timers_wf_connect, timers_wf_clearTimer.
Qed.

Lemma timers_wf_step (s : State) (e : Event) :
  timers_wf s -> timers_wf (step s e).
Proof.
  intro Hwf. destruct e as [au vi env| |a|outcome|a msg env|i|id|a|a|h env];
    simpl.
  - unfold handleDeviceSelection. cbv zeta. apply timers_wf_connect.
    revert Hwf. apply timers_wf_same; reflexivity.
  - now apply timers_wf_disconnect.
  - unfold onopen. destruct (negb _); [exact Hwf|].
    revert Hwf. apply timers_wf_same; reflexivity.
  - unfold onopen_resume. destruct outcome as [err|].
    + apply timers_wf_disconnect. revert Hwf.
      apply timers_wf_same; reflexivity.
    + apply timers_wf_startVideoStreaming. revert Hwf.
      apply timers_wf_same; reflexivity.
  - apply (timers_wf_core s); [apply onmessage_timer_core | exact Hwf].
  - apply (timers_wf_core s); [apply resume_timer_core | exact Hwf].
  - revert Hwf. apply timers_wf_same; reflexivity.
  - now apply timers_wf_onclose.
  - exact Hwf.
  - now apply timers_wf_fire.
Qed.

Lemma timers_wf_initial : timers_wf initial.
Proof.
  constructor; simpl; try (intros t []); [lia | constructor].
Qed.

Lemma reachable_timers_wf (s : State) : reachable s -> timers_wf s.
Proof.
  induction 1 as [|s e _ IH]; [exact timers_wf_initial|].
  now apply timers_wf_step.
Qed.

Lemma reachable_run (s : State) (es : list Event) :
  reachable s -> reachable (run s es).
Proof.
  revert s. induction es as [|e es IH]; intros s H; simpl; [exact H|].
  apply IH. now constructor.
Qed.

(** *** Reconnection *)

Lemma clear_if_set_shape (r : option nat) (s : State) :
  clear_if_set r s = set_timers (timers (clear_if_set r s)) s.
Proof.
  destruct r as [[|h]|]; simpl; try reflexivity; destruct s; reflexivity.
Qed.

Lemma clear_if_set_view (r : option nat) (s : State) :
  isUserDisconnectingRef (clear_if_set r s) = isUserDisconnectingRef s
  /\ minted (clear_if_set r s) = minted s
  /\ nextHandle (clear_if_set r s) = nextHandle s
  /\ reconnectTimeoutRef (clear_if_set r s) = reconnectTimeoutRef s
  /\ frameIntervalRef (clear_if_set r s) = frameIntervalRef s
  /\ activeAudioIdRef (clear_if_set r s) = activeAudioIdRef s
  /\ activeVideoIdRef (clear_if_set r s) = activeVideoIdRef s.
Proof. destruct r as [[|h]|]; repeat split; reflexivity. Qed.

Lemma no_reconnect_iff (s : State) :
  reconnect_timers s = [] <->
  (forall t, In t (timers s) -> kind t <> ReconnectTimeout).
Proof.
  unfold reconnect_timers. split.
  - intros H t Hin Hk.
    assert (Hf : In t (filter (fun t => match kind t with
                                        | ReconnectTimeout => true
                                        | FrameInterval => false
                                        end) (timers s)))
      by (apply filter_In; split; [exact Hin | now rewrite Hk]).
    rewrite H in Hf. destruct Hf.
  - intro H. induction (timers s) as [|t l IH]; simpl; [reflexivity|].
    destruct (kind t) eqn:Ek.
    + exfalso. apply (H t); [now left | exact Ek].
    + apply IH. intros t' Hin. apply H. now right.
Qed.

Lemma at_most_one_reconnect (s : State) :
  timers_wf s -> (List.length (reconnect_timers s) <= 1)%nat.
Proof.
  intros [_ Hd _ Hrc _]. unfold reconnect_timers.
  induction (timers s) as [|t l IH]; simpl; [lia|].
  inversion Hd as [|? ? Hnotin Hnd]; subst.
  assert (IH' := IH Hnd (fun t' Hin => Hrc t' (or_intror Hin))).
  destruct (kind t) eqn:Ek; [|exact IH']. simpl.
  destruct (filter _ l) as [|t' l'] eqn:Ef; [simpl; lia|].
  exfalso. assert (Hin' : In t' (filter (fun t0 => match kind t0 with
                                                   | ReconnectTimeout => true
                                                   | FrameInterval => false
                                                   end) l))
    by (rewrite Ef; now left).
  apply filter_In in Hin'. destruct Hin' as [Hin' Hk'].
  destruct (kind t') eqn:Ek'; [|discriminate].
  assert (E1 := Hrc t (or_introl eq_refl) Ek).
  assert (E2 := Hrc t' (or_intror Hin') Ek').
  apply Hnotin. apply in_map_iff. exists t'. split; [congruence | exact Hin'].
Qed.

Lemma find_fresh (l : list Timer) (h : nat) (k : TimerKind) (d : Z) :
  (forall x, In x l -> handle x <> h) ->
  find (fun x => Nat.eqb (handle x) h) (l ++ [mkTimer h k d])
  = Some (mkTimer h k d).
Proof.
  intro H. induction l as [|x l IH]; simpl.
  - now rewrite Nat.eqb_refl.
  - destruct (Nat.eqb (handle x) h) eqn:E.
    + apply Nat.eqb_eq in E. exfalso. apply (H x); [now left | exact E].
    + apply IH. intros y Hy. apply H. now right.
Qed.

Lemma cleanup_view (s : State) :
  timers (cleanup s) = timers (clear_if_set (frameIntervalRef s) s)
  /\ isUserDisconnectingRef (cleanup s) = isUserDisconnectingRef s
  /\ minted (cleanup s) = minted s.
Proof.
  unfold cleanup. simpl.
  destruct (frameIntervalRef s) as [[|h]|]; repeat split; reflexivity.
Qed.

Lemma disconnect_view (s : State) :
  (forall t, In t (timers (disconnect s)) ->
             In t (timers (clear_if_set (reconnectTimeoutRef s) s)))
  /\ isUserDisconnectingRef (disconnect s) = true
  /\ minted (disconnect s) = minted s.
Proof.
  unfold disconnect, cleanup. simpl.
  destruct (reconnectTimeoutRef s) as [[|h]|]; simpl;
    destruct (frameIntervalRef s) as [[|h']|]; simpl;
    repeat split; try reflexivity; intros t Hin; try exact Hin;
    apply filter_In in Hin; tauto.
Qed.

Lemma quiet_disconnect (s : State) :
  timers_wf s -> quiet (disconnect s) /\ minted (disconnect s) = minted s.
Proof.
  intro Hwf. destruct (disconnect_view s) as [Ht [Hu Hm]].
  split; [split|]; try assumption.
  apply no_reconnect_iff. intros t Hin. apply Ht in Hin.
  now apply (cleared_reconnect s).
Qed.

Lemma quiet_core (s s' : State) :
  timer_core s' = timer_core s ->
  quiet s -> quiet s' /\ minted s' = minted s.
Proof.
  unfold timer_core, quiet, reconnect_timers.
  intros E [Hu Hr]. injection E as Et _ _ _ Eu Em _ _ _.
  now rewrite Et, Eu, Em.
Qed.

Lemma startVideoStreaming_view (s : State) :
  timers (startVideoStreaming s) =
  timers (clear_if_set (frameIntervalRef s) s)
    ++ [mkTimer (nextHandle s) FrameInterval 1000]
  /\ isUserDisconnectingRef (startVideoStreaming s) = isUserDisconnectingRef s
  /\ minted (startVideoStreaming s) = minted s.
Proof.
  unfold startVideoStreaming.
  destruct (frameIntervalRef s) as [[|h]|]; repeat split; reflexivity.
Qed.

Lemma quiet_cleanup (s : State) :
  quiet s -> quiet (cleanup s) /\ minted (cleanup s) = minted s.
Proof.
  intros [Hu Hr]. destruct (cleanup_view s) as [Ht [Hu' Hm']].
  repeat split.
  - now rewrite Hu'.
  - apply no_reconnect_iff. rewrite Ht. intros t Hin.
    apply clear_if_set_timers in Hin. destruct Hin as [Hin _].
    revert t Hin. now apply no_reconnect_iff.
  - exact Hm'.
Qed.

Lemma quiet_startVideoStreaming (s : State) :
  quiet s ->
  quiet (startVideoStreaming s) /\ minted (startVideoStreaming s) = minted s.
Proof.
  intros [Hu Hr]. destruct (startVideoStreaming_view s) as [Ht [Hu' Hm']].
  repeat split.
  - now rewrite Hu'.
  - apply no_reconnect_iff. rewrite Ht. intros t Hin.
    apply in_app_or in Hin.
    destruct Hin as [Hin|[<-|[]]]; [|discriminate].
    apply clear_if_set_timers in Hin. destruct Hin as [Hin _].
    revert t Hin. now apply no_reconnect_iff.
  - exact Hm'.
Qed.

Lemma quiet_step (s : State) (e : Event) :
  timers_wf s -> quiet s -> is_select e = false ->
  quiet (step s e) /\ minted (step s e) = minted s.
Proof.
  intros Hwf Hq He.
  destruct e as [au vi env| |a|outcome|a msg env|i|id|a|a|h env];
    try discriminate He; cbv beta iota delta [App.step].
  - exact (quiet_disconnect s Hwf).
  - apply (quiet_core s); [|exact Hq].
    unfold onopen. destruct (negb _); reflexivity.
  - unfold onopen_resume. destruct outcome as [err|].
    + apply (quiet_core s
               (addLog ("传感器挂载失败: " ++ err)%string SYSTEM error s))
        in Hq; [|apply addLog_cores].
      destruct Hq as [Hq Hm].
      destruct (quiet_disconnect
                  (addLog ("传感器挂载失败: " ++ err)%string SYSTEM error s))
        as [Hq' Hm'].
      * eapply timers_wf_core; [apply addLog_cores | exact Hwf].
      * split; [exact Hq' | now rewrite Hm'].
    + apply (quiet_core s (set_videoSrcObject true s)) in Hq;
        [|reflexivity].
      destruct Hq as [Hq Hm].
      destruct (quiet_startVideoStreaming _ Hq) as [Hq' Hm'].
      split; [exact Hq' | now rewrite Hm'].
  - apply (quiet_core s); [apply onmessage_timer_core | exact Hq].
  - apply (quiet_core s); [apply resume_timer_core | exact Hq].
  - apply (quiet_core s); [reflexivity | exact Hq].
  - unfold onclose. destruct (negb (Z.eqb _ a)); [now split|].
    rewrite (proj1 Hq). cbv beta iota delta [negb].
    apply (quiet_core s (addLog "会话已正常结束。" SYSTEM info s)) in Hq;
      [|apply addLog_cores].
    destruct Hq as [Hq Hm].
    destruct (quiet_cleanup _ Hq) as [Hq' Hm'].
    split; [exact Hq' | now rewrite Hm'].
  - unfold onerror. now split.
  - unfold fire. destruct (find _ (timers s)) as [t|] eqn:Ef; [|now split].
    destruct (kind t) eqn:Ek; [|now split].
    apply find_some in Ef. destruct Ef as [Hin _].
    destruct Hq as [_ Hr]. exfalso.
    exact (proj1 (no_reconnect_iff s) Hr t Hin Ek).
Qed.

Lemma quiet_run (es : list Event) (s : State) :
  timers_wf s -> quiet s ->
  forallb (fun e => negb (is_select e)) es = true ->
  quiet (run s es) /\ minted (run s es) = minted s.
Proof.
  revert s. induction es as [|e es IH]; intros s Hwf Hq Hes; simpl;
    [now split|].
  simpl in Hes. apply andb_prop in Hes. destruct Hes as [He Hes].
  apply Bool.negb_true_iff in He.
  destruct (quiet_step s e Hwf Hq He) as [Hq' Hm'].
  destruct (IH (step s e) (timers_wf_step s e Hwf) Hq' Hes) as [Hq'' Hm''].
  split; [exact Hq'' | congruence].
Qed.

Lemma connect_timers (audioId videoId : string) (env : ConnectEnv)
      (s : State) :
  timers (connect audioId videoId env s) = timers s.
Proof.
  unfold connect.
  destruct (ce_apiKey env), (ce_seenConnected env), (ce_audioSetupOk env),
    (ce_liveConnectError env); reflexivity.
Qed.

(** What an unexpected close of the current attempt leaves behind. *)
Lemma onclose_unexpected (s : State) :
  timers_wf s -> isUserDisconnectingRef s = false ->
  let s1 := onclose (connectionAttemptIdRef s) s in
  exists old,
    timers s1 = old ++ [mkTimer (nextHandle s) ReconnectTimeout 1500]
    /\ (forall t, In t old -> In t (timers s) /\ kind t <> ReconnectTimeout)
    /\ reconnectTimeoutRef s1 = Some (nextHandle s)
    /\ activeAudioIdRef s1 = activeAudioIdRef s
    /\ activeVideoIdRef s1 = activeVideoIdRef s
    /\ minted s1 = minted s
    /\ isStreamingRef s1 = false.
Proof.
  intros Hwf Hu. unfold onclose. rewrite Z.eqb_refl, Hu. simpl negb.
  cbv iota zeta.
  set (s1 := set_isStreamingRef false
               (addLog "链路波动，正在重新校准..." SYSTEM warning s)).
  assert (Hwf1 : timers_wf s1)
    by (revert Hwf; apply timers_wf_same; reflexivity).
  set (s2 := clear_if_set (frameIntervalRef s1) s1).
  assert (Hwf2 : timers_wf s2) by now apply timers_wf_clear_if_set.
  set (s3 := clear_if_set (reconnectTimeoutRef s2) s2).
  destruct (clear_if_set_view (frameIntervalRef s1) s1)
    as [_ [Hm2 [Hn2 [_ [_ [Ha2 Hv2]]]]]].
  destruct (clear_if_set_view (reconnectTimeoutRef s2) s2)
    as [_ [Hm3 [Hn3 [_ [_ [Ha3 Hv3]]]]]].
  fold s2 in Hm2, Hn2, Ha2, Hv2. fold s3 in Hm3, Hn3, Ha3, Hv3.
  assert (Hn : nextHandle s3 = nextHandle s) by (rewrite Hn3, Hn2; reflexivity).
  exists (timers s3). repeat split.
  - simpl. now rewrite Hn.
  - apply (clear_if_set_timers (reconnectTimeoutRef s2) s2) in H.
    destruct H as [H _].
    apply (clear_if_set_timers (frameIntervalRef s1) s1) in H.
    destruct H as [H _]. exact H.
  - now apply (cleared_reconnect s2).
  - simpl. now rewrite Hn.
  - simpl. rewrite Ha3, Ha2. reflexivity.
  - simpl. rewrite Hv3, Hv2. reflexivity.
  - simpl. rewrite Hm3, Hm2. reflexivity.
  - simpl. unfold s3. rewrite (clear_if_set_shape _ s2). simpl.
    unfold s2. rewrite (clear_if_set_shape _ s1). reflexivity.
Qed.

(** C6. In every reachable state at most one reconnect timer is
    pending.  When the current attempt closes and the user did not ask
    for it, exactly one reconnect is pending afterwards, due after 1500
    ms; when it fires it calls [connect] with the device selection kept
    in the refs; and if [disconnect()] comes first the timer is gone and,
    until the user selects devices again, no event starts a connection. *)
Theorem reconnect_scheduled_once_and_cancellable :
  (forall s : State,
      reachable s -> (List.length (reconnect_timers s) <= 1)%nat)
  /\ (forall s : State,
        reachable s -> isUserDisconnectingRef s = false ->
        let h := nextHandle s in
        let s1 := onclose (connectionAttemptIdRef s) s in
        reconnect_timers s1 = [mkTimer h ReconnectTimeout 1500]
        /\ reconnectTimeoutRef s1 = Some h
        /\ (forall env : ConnectEnv,
              fire h env s1 =
              connect (activeAudioIdRef s) (activeVideoIdRef s) env
                      (clearTimer h s1)
              /\ reconnect_timers (fire h env s1) = []
              /\ minted (fire h env s1) = minted s ++ [ce_now env])
        /\ reconnect_timers (disconnect s1) = []
        /\ (forall es : list Event,
              forallb (fun e => negb (is_select e)) es = true ->
              reconnect_timers (run (disconnect s1) es) = []
              /\ minted (run (disconnect s1) es) = minted s)).
Proof.
  split.
  - intros s Hr. now apply at_most_one_reconnect, reachable_timers_wf.
  - intros s Hr Hu h s1. assert (Hwf := reachable_timers_wf s Hr).
    assert (Hwf1 : timers_wf s1) by now apply timers_wf_onclose.
    destruct (onclose_unexpected s Hwf Hu)
      as [old [Ht [Hold [Href [Ha [Hv [Hm _]]]]]]].
    fold s1 in Ht, Href, Ha, Hv, Hm. fold h in Ht, Href.
    assert (Hnone : filter (fun t => match kind t with
                                     | ReconnectTimeout => true
                                     | FrameInterval => false
                                     end) old = []).
    { clear - Hold. induction old as [|t l IH]; simpl; [reflexivity|].
      destruct (kind t) eqn:Ek.
      - exfalso. now apply (proj2 (Hold t (or_introl eq_refl))).
      - apply IH. intros t' Hin. apply Hold. now right. }
    split; [|split; [|split; [|split]]].
    + unfold reconnect_timers. rewrite Ht, filter_app, Hnone. reflexivity.
    + exact Href.
    + intro env.
      assert (Hfire : fire h env s1 =
                      connect (activeAudioIdRef s) (activeVideoIdRef s) env
                              (clearTimer h s1)).
      { unfold fire. rewrite Ht.
        rewrite (find_fresh old h ReconnectTimeout 1500).
        - simpl. now rewrite Ha, Hv.
        - intros x Hx.
          destruct (wf_range s Hwf x (proj1 (Hold x Hx))). unfold h. lia. }
      split; [exact Hfire|]. rewrite Hfire. split.
      * unfold reconnect_timers. rewrite connect_timers. simpl.
        rewrite Ht, filter_app. simpl. rewrite Nat.eqb_refl. simpl.
        rewrite app_nil_r.
        clear - Hnone. induction old as [|t l IH]; simpl; [reflexivity|].
        simpl in Hnone. destruct (kind t) eqn:Ek; [discriminate|].
        destruct (negb (Nat.eqb (handle t) h)); simpl;
          [rewrite Ek|]; now apply IH.
      * rewrite (proj2 (connect_mints_clock_reading _ _ _ _)).
        simpl. now rewrite Hm.
    + now apply quiet_disconnect.
    + intros es Hes.
      destruct (quiet_disconnect s1 Hwf1) as [Hq Hmd].
      destruct (quiet_run es (disconnect s1)
                          (timers_wf_disconnect s1 Hwf1) Hq Hes)
        as [[_ Hq'] Hm'].
      split; [exact Hq' | congruence].
Qed.

End SessionFacts.

(* ------------------------------------------------------------------ *)
(** ** The properties at concrete runs *)

Section Runs.
Import App.

Local Abbreviation step := (App.step sample_decode sample_decodeAudioData).
Local Abbreviation run := (App.run sample_decode sample_decodeAudioData).
Local Abbreviation reachable :=
  (App.reachable sample_decode sample_decodeAudioData).

Lemma stale_callbacks_ignored_witness :
  let envA := mkConnectEnv 1000 true false true None in
  let envB := mkConnectEnv 2000 true false true None in
  let s := run initial [EvSelectDevices "mic" "cam" envA;
                        EvSelectDevices "mic" "cam" envB] in
  let msg := mkMessage (Some [mkPart (Some "[OBJECT:cup:1,2,3,4]")
                                     (Some "abcd")])
                       None true in
  connectionAttemptIdRef s <> 1000
  /\ onopen 1000 s = s
  /\ App.onmessage sample_decode 1000 msg (mkMessageEnv 5 2001) s = s
  /\ onclose 1000 s = s.
Proof.
  intros envA envB s msg.
  assert (H : connectionAttemptIdRef s <> 1000) by (vm_compute; discriminate).
  split; [exact H|].
  exact (stale_callbacks_ignored sample_decode s 1000 msg
                                 (mkMessageEnv 5 2001) H).
Defined.


(** C2, on the code: [playAudioResponse] reads the playback clock again
    after [await decodeAudioData].  A message that carries audio and the
    interruption flag resets the clock while its segment is being
    decoded, so the segment is told to start at 0, not at
    [max(PlaybackClock, currentTime)], and joins the sources after the
    interruption emptied them. *)
Theorem interrupted_message_audio_starts_at_zero :
  let env := mkConnectEnv 1000 true false true None in
  let audio d i := mkMessage (Some [mkPart None (Some d)]) None i in
  let s := run initial [EvSelectDevices "mic" "cam" env; EvOpen 1000;
                        EvMedia None;
                        EvMessage 1000 (audio "abcdefgh" false)
                                  (mkMessageEnv 50 1001);
                        EvDecoded 0] in
  let s' := run s [EvMessage 1000 (audio "abcd" true) (mkMessageEnv 52 1002);
                   EvDecoded 0] in
  sourcesRef s = [mkAudioSource 0 50 4]
  /\ nextStartTimeRef s = 54
  /\ Z.max (nextStartTimeRef s) 52 = 54
  /\ stopped s' = [0%nat]
  /\ sourcesRef s' = [mkAudioSource 1 0 2]
  /\ nextStartTimeRef s' = 2.
Proof. repeat split; reflexivity. Qed.

Lemma interruption_stops_all_audio_witness :
  let env := mkConnectEnv 1000 true false true None in
  let audio d := mkMessage (Some [mkPart None (Some d)]) None false in
  let s := run initial [EvSelectDevices "mic" "cam" env; EvOpen 1000;
                        EvMedia None;
                        EvMessage 1000 (audio "abcdefgh") (mkMessageEnv 50 1001);
                        EvDecoded 0;
                        EvMessage 1000 (audio "abcd") (mkMessageEnv 51 1002);
                        EvDecoded 0] in
  let msg := mkMessage None None true in
  let s' := App.onmessage sample_decode (connectionAttemptIdRef s) msg
                          (mkMessageEnv 52 1003) s in
  interrupted msg = true
  /\ List.length (sourcesRef s) = 2%nat
  /\ sourcesRef s' = []
  /\ nextStartTimeRef s' = 0
  /\ stopped s' = [0%nat; 1%nat].
Proof.
  intros env audio s msg s'.
  assert (H : interrupted msg = true) by reflexivity.
  split; [exact H|]. split; [reflexivity|].
  destruct (interruption_stops_all_audio sample_decode s msg
                                         (mkMessageEnv 52 1003) H)
    as [Hsrc [Hclk [Hstop _]]].
  split; [exact Hsrc|]. split; [exact Hclk|]. exact Hstop.
Defined.




Lemma reconnect_scheduled_once_and_cancellable_witness :
  let env := mkConnectEnv 1000 true false true None in
  let s := run initial [EvSelectDevices "mic" "cam" env; EvOpen 1000;
                        EvMedia None] in
  let s1 := onclose 1000 s in
  reachable s
  /\ isUserDisconnectingRef s = false
  /\ reconnect_timers s1 = [mkTimer 2 ReconnectTimeout 1500]
  /\ reconnect_timers (disconnect s1) = [].
Proof.
  intros env s s1.
  assert (Hr : reachable s)
    by (apply reachable_run; apply reachable_initial).
  assert (Hu : isUserDisconnectingRef s = false) by reflexivity.
  split; [exact Hr|]. split; [exact Hu|].
  destruct (proj2 (reconnect_scheduled_once_and_cancellable
                     sample_decode sample_decodeAudioData) s Hr Hu)
    as [H1 [_ [_ [H4 _]]]].
  split; [exact H1 | exact H4].
Defined.

(** C9, on the code: the attempt identifier is the reading of
    [Date.now()] at the call of [connect], whatever the state.  When the
    reconnect that follows an unexpected close reads the same value as the
    attempt before it, the two attempts carry the same identifier, and a
    late callback of the first is not taken for stale. *)
Theorem attempt_id_repeats_with_the_clock :
  (forall (audioId videoId : string) (env : ConnectEnv) (s : State),
      connectionAttemptIdRef (connect audioId videoId env s) = ce_now env)
  /\ (let env := mkConnectEnv 1000 true false true None in
      let sA := step initial (EvSelectDevices "mic" "cam" env) in
      let sB := run sA [EvClose 1000; EvTimer 1 env] in
      minted sB = [1000; 1000]
      /\ connectionAttemptIdRef sB = connectionAttemptIdRef sA
      /\ onopen (connectionAttemptIdRef sA) sB <> sB).
Proof.
  split.
  - intros audioId videoId env s.
    exact (proj1 (connect_mints_clock_reading audioId videoId env s)).
  - intros env sA sB. repeat split; try reflexivity.
    intro H. apply (f_equal isConnected) in H. vm_compute in H.
    discriminate.
Qed.

End Runs.

(* ================================================================== *)
(** * Further properties of the code *)

(* ------------------------------------------------------------------ *)
(** ** Memory store, continued *)

Section MemoryStoreMore.
Import MemoryService.

(** X1. [getContextString] returns the "no memories" sentence exactly
    when [load()] is empty (nothing stored, or a text that does not
    parse); with at least one fact it returns bullet lines, which never
    read as that sentence. *)
Theorem context_string_sentinel_iff_empty (st : Storage) :
  getContextString st = "暂无历史记忆。" <-> load st = [].
Proof.
  unfold getContextString. destruct (load st) as [|m l]; simpl.
  - split; reflexivity.
  - split; [|discriminate]. destruct l; simpl; discriminate.
Qed.

(** X2. [save(key, ...)] leaves the facts of every other key as they
    were, in the order they had. *)
Theorem save_keeps_other_keys (st : Storage) (k v : jsval) (t : Z) :
  filter (fun m => negb (jsval_eqb (key m) k)) (load (snd (save k v t st)))
  = filter (fun m => negb (jsval_eqb (key m) k)) (load st).
Proof.
  rewrite load_save, filter_app. simpl. rewrite jsval_eqb_refl. simpl.
  rewrite app_nil_r. induction (load st) as [|m l IH]; simpl; [reflexivity|].
  destruct (jsval_eqb (key m) k) eqn:E; simpl; [exact IH|].
  rewrite E. simpl. now rewrite IH.
Qed.


Lemma with_key_save_other (st : Storage) (k k' v : jsval) (t : Z) :
  jsval_eqb k' k = false ->
  with_key k (load (snd (save k' v t st))) = with_key k (load st).
Proof.
  intro Hne. rewrite load_save, with_key_app. unfold with_key at 2. simpl.
  rewrite Hne, app_nil_r. unfold with_key.
  induction (load st) as [|m l IH]; simpl; [reflexivity|].
  destruct (jsval_eqb (key m) k') eqn:E; simpl.
  - apply jsval_eqb_eq in E. rewrite E, Hne. exact IH.
  - destruct (jsval_eqb (key m) k); [now rewrite IH | exact IH].
Qed.

Lemma with_key_saves_other (ops : list (jsval * jsval * Z)) (st : Storage)
      (k : jsval) :
  existsb (fun '(k', _, _) => jsval_eqb k' k) ops = false ->
  with_key k (load (saves ops st)) = with_key k (load st).
Proof.
  revert st. induction ops as [|[[k' v] t] ops IH]; intros st H;
    [reflexivity|].
  simpl in H. apply Bool.orb_false_elim in H. destruct H as [Hk Hrest].
  change (saves ((k', v, t) :: ops) st)
    with (saves ops (snd (save k' v t st))).
  rewrite (IH _ Hrest). now apply with_key_save_other.
Qed.

Lemma saves_app (a b : list (jsval * jsval * Z)) (st : Storage) :
  saves (a ++ b) st = saves b (saves a st).
Proof. unfold saves. apply fold_left_app. Qed.

(** X3. After any run of saves, [load()] holds for a key exactly one
    fact, the one of the last save of that key in the run, whatever was
    stored before and whatever was saved under other keys. *)
Theorem saves_last_value_wins
        (st : Storage) (before after : list (jsval * jsval * Z))
        (k v : jsval) (t : Z) :
  existsb (fun '(k', _, _) => jsval_eqb k' k) after = false ->
  with_key k (load (saves (before ++ (k, v, t) :: after) st))
  = [mkMemoryItem k v t].
Proof.
  intro H. rewrite saves_app.
  change (saves ((k, v, t) :: after) (saves before st))
    with (saves after (snd (save k v t (saves before st)))).
  rewrite (with_key_saves_other after _ k H).
  rewrite load_save, with_key_app, with_key_others. simpl.
  now rewrite jsval_eqb_refl.
Qed.

Lemma saves_last_value_wins_witness :
  existsb (fun '(k', _, _) => jsval_eqb k' (JStr "name"))
          [(JStr "city", JStr "Rome", 13)] = false
  /\ with_key (JStr "name")
       (load (saves ([(JStr "name", JStr "Ann", 10)]
                       ++ (JStr "name", JStr "Bea", 12)
                       :: [(JStr "city", JStr "Rome", 13)])
                    (Some Garbage)))
     = [mkMemoryItem (JStr "name") (JStr "Bea") 12].
Proof.
  split; [reflexivity|].
  apply (saves_last_value_wins (Some Garbage)). reflexivity.
Defined.

(** X24. A store that holds nothing readable starts over: when nothing
    is stored, when the stored text does not parse, and after [clear()],
    [load()] is empty and the context string is the "no memories"
    sentence; the next [save] leaves exactly its own fact, and the context
    string is that fact's line. *)
Theorem unreadable_store_starts_over (st0 : Storage) (k v : jsval) (t : Z) :
  Forall (fun st =>
            load st = []
            /\ getContextString st = "暂无历史记忆。"
            /\ load (snd (save k v t st)) = [mkMemoryItem k v t]
            /\ getContextString (snd (save k v t st))
               = bullet (mkMemoryItem k v t))
         [None; Some Garbage; clear st0].
Proof. repeat constructor. Qed.

End MemoryStoreMore.

(* ------------------------------------------------------------------ *)
(** ** Overlays: what the parser yields and how long they live *)

Section OverlaysMore.
Import Regex App.







Lemma number_length (s : string) :
  number s = true -> (1 <= String.length s)%nat.
Proof. destruct s; [discriminate | simpl; lia]. Qed.

Lemma token_length (m : Match) :
  well_formed m = true -> (17 <= String.length (token m))%nat.
Proof.
  intro Hw. apply well_formed_parts in Hw. destruct Hw as [_ Hn].
  repeat (apply andb_prop in Hn; destruct Hn as [Hn ?]).
  apply number_length in Hn.
  repeat match goal with
         | H : number _ = true |- _ => apply number_length in H
         end.
  unfold token, coords_text. repeat rewrite slength_app. simpl. lia.
Qed.

(** X5. A text of [n] characters yields at most [n / 17] overlays: every
    match takes at least the seventeen characters of the shortest token,
    and matches do not overlap. *)
Theorem overlays_bounded_by_text_length (txt : string) (now : Z) :
  (17 * List.length (newOverlays txt now) <= String.length txt)%nat.
Proof.
  unfold newOverlays. rewrite length_map.
  remember (String.length txt) as n eqn:Hn. revert txt Hn.
  induction n as [n IH] using (well_founded_induction lt_wf).
  intros txt Hn. rewrite exec_all_eq.
  destruct (exec txt) as [[m r]|] eqn:E; [|simpl; lia].
  destruct (exec_sound _ _ _ E) as [pre [Hs [Hw _]]].
  assert (Hlen : String.length txt
                 = (String.length pre + (String.length (token m)
                                         + String.length r))%nat)
    by (rewrite Hs, !slength_app; reflexivity).
  apply token_length in Hw.
  assert (IHr := IH (String.length r) ltac:(lia) r eq_refl).
  simpl. lia.
Qed.







End OverlaysMore.

(* ------------------------------------------------------------------ *)
(** ** Session manager, continued *)

(** What [onmessage] does to a view [P] of the state before it handles
    the interruption, given what its parts do to [P]. *)
Section OnMessageFrame.
Import App.

Variable decode : string -> option string.
Variable A : Type.
Variable P : State -> A.
Variable R : A -> A -> Prop.

Hypothesis R_refl : forall a, R a a.
Hypothesis R_trans : forall a b c, R a b -> R b c -> R a c.
Hypothesis P_addLog :
  forall m src ty s, R (P s) (P (addLog m src ty s)).
Hypothesis P_begin :
  forall d t s, R (P s) (P (playAudioResponse_begin decode d t s)).
Hypothesis P_parse :
  forall txt now s, R (P s) (P (parseARObjects txt now s)).
Hypothesis P_tool :
  forall fc now s r s', tool_result fc now s = Some (r, s') -> R (P s) (P s').
Hypothesis P_send :
  forall a r s, R (P s) (P (sendToolResponse a r s)).

Lemma handleToolCalls_rel (calls : list FunctionCall) (a now : Z)
      (s : State) :
  R (P s) (P (state_of (handleToolCalls calls a now s))).
Proof.
  revert s. induction calls as [|fc calls IH]; intro s; simpl;
    [apply R_refl|].
  unfold handleFunctionCall.
  destruct (tool_result fc now _) as [[r s1]|] eqn:E.
  - eapply R_trans; [|apply IH].
    eapply R_trans; [|apply P_send].
    eapply R_trans; [apply P_addLog|]. exact (P_tool _ _ _ _ _ E).
  - simpl. apply P_addLog.
Qed.

Lemma parts_rel (ps : list Part) (now : Z) (s : State) :
  R (P s)
    (P (fold_left
          (fun acc p =>
             match truthy (text p) with
             | Some t => parseARObjects t now acc
             | None => acc
             end) ps s)).
Proof.
  revert s. induction ps as [|p ps IH]; intro s; simpl; [apply R_refl|].
  eapply R_trans; [|apply IH].
  destruct (truthy (text p)); [apply P_parse | apply R_refl].
Qed.

Lemma onmessage_payloads_rel (s : State) (msg : LiveServerMessage)
      (env : MessageEnv) :
  exists mid,
    R (P s) (P mid)
    /\ App.onmessage decode (connectionAttemptIdRef s) msg env s =
       if interrupted msg
       then stopAllAudio (addLog "用户打断" JARVIS warning mid)
       else mid.
Proof.
  unfold App.onmessage. rewrite Z.eqb_refl. cbv zeta. simpl negb. cbv iota.
  eexists. split; [|reflexivity].
  destruct (toolCall msg) as [calls|];
    [eapply R_trans; [|apply handleToolCalls_rel]|];
    (destruct (parts msg) as [ps|];
     [eapply R_trans; [|apply parts_rel]|]);
    destruct (truthy (audioData msg));
    try destruct (is_some (audioContextRef s) && analyserRef s)%bool;
    first [apply P_begin | apply R_refl].
Qed.

End OnMessageFrame.

Section SessionMore.
Import App.

Variable decode : string -> option string.
Variable decodeAudioData : string -> option Z.

Local Abbreviation onmessage := (App.onmessage decode).
Local Abbreviation playAudioResponse_begin :=
  (App.playAudioResponse_begin decode).
Local Abbreviation playAudioResponse_resume :=
  (App.playAudioResponse_resume decodeAudioData).
Local Abbreviation playAudioResponse :=
  (App.playAudioResponse decode decodeAudioData).
Local Abbreviation step := (App.step decode decodeAudioData).
Local Abbreviation run := (App.run decode decodeAudioData).
Local Abbreviation reachable := (App.reachable decode decodeAudioData).

(** *** What the handlers outside [onmessage] leave alone *)

Lemma connect_data (audioId videoId : string) (env : ConnectEnv)
      (s : State) :
  playback_core (connect audioId videoId env s) = playback_core s
  /\ memory_core (connect audioId videoId env s) = memory_core s.
Proof.
  unfold connect.
  destruct (ce_apiKey env), (ce_seenConnected env), (ce_audioSetupOk env),
    (ce_liveConnectError env); split; reflexivity.
Qed.

Lemma clear_if_set_data (r : option nat) (s : State) :
  playback_core (clear_if_set r s) = playback_core s
  /\ memory_core (clear_if_set r s) = memory_core s
  /\ logs (clear_if_set r s) = logs s.
Proof. destruct r as [[|h]|]; repeat split; reflexivity. Qed.

Lemma cleanup_data (s : State) :
  playback_core (cleanup s) = playback_core s
  /\ memory_core (cleanup s) = memory_core s
  /\ logs (cleanup s) = logs s.
Proof.
  unfold cleanup. simpl.
  destruct (frameIntervalRef s) as [[|h]|]; repeat split; reflexivity.
Qed.

Lemma disconnect_data (s : State) :
  playback_core (disconnect s) = playback_core s
  /\ memory_core (disconnect s) = memory_core s
  /\ logs (disconnect s) = logs s ++ [mkLogEntry SYSTEM "系统脱离。" warning].
Proof.
  unfold disconnect, cleanup. simpl.
  destruct (reconnectTimeoutRef s) as [[|h]|]; simpl;
    destruct (frameIntervalRef s) as [[|h']|]; repeat split; reflexivity.
Qed.

Lemma startVideoStreaming_data (s : State) :
  playback_core (startVideoStreaming s) = playback_core s
  /\ memory_core (startVideoStreaming s) = memory_core s
  /\ logs (startVideoStreaming s) = logs s.
Proof.
  unfold startVideoStreaming.
  destruct (frameIntervalRef s) as [[|h]|]; repeat split; reflexivity.
Qed.

Lemma onopen_resume_data (outcome : option string) (s : State) :
  playback_core (onopen_resume outcome s) = playback_core s
  /\ memory_core (onopen_resume outcome s) = memory_core s.
Proof.
  unfold onopen_resume. destruct outcome as [err|].
  - destruct (disconnect_data
                (addLog ("传感器挂载失败: " ++ err)%string SYSTEM error s))
      as [Hp [Hm _]].
    rewrite Hp, Hm. split; reflexivity.
  - destruct (startVideoStreaming_data (set_videoSrcObject true s))
      as [Hp [Hm _]].
    rewrite Hp, Hm. split; reflexivity.
Qed.

Lemma onclose_data (a : Z) (s : State) :
  playback_core (onclose a s) = playback_core s
  /\ memory_core (onclose a s) = memory_core s.
Proof.
  unfold onclose. destruct (negb (Z.eqb _ a)); [split; reflexivity|].
  destruct (negb (isUserDisconnectingRef s)).
  - cbv zeta. simpl.
    destruct (frameIntervalRef s) as [[|h]|]; simpl;
      destruct (reconnectTimeoutRef s) as [[|h']|]; split; reflexivity.
  - destruct (cleanup_data (addLog "会话已正常结束。" SYSTEM info s))
      as [Hp [Hm _]].
    rewrite Hp, Hm. split; reflexivity.
Qed.

Lemma fire_data (h : nat) (env : ConnectEnv) (s : State) :
  playback_core (fire h env s) = playback_core s
  /\ memory_core (fire h env s) = memory_core s.
Proof.
  unfold fire. destruct (find _ (timers s)) as [t|]; [|split; reflexivity].
  destruct (kind t); [|split; reflexivity].
  destruct (connect_data (activeAudioIdRef s) (activeVideoIdRef s) env
                         (clearTimer h s)) as [Hp Hm].
  rewrite Hp, Hm. split; reflexivity.
Qed.

Lemma handleDeviceSelection_data (audioId videoId : string)
      (env : ConnectEnv) (s : State) :
  playback_core (handleDeviceSelection audioId videoId env s)
  = playback_core s
  /\ memory_core (handleDeviceSelection audioId videoId env s)
     = memory_core s.
Proof.
  unfold handleDeviceSelection. cbv zeta.
  destruct (connect_data audioId videoId env
              (set_isUserDisconnectingRef false
                 (set_activeVideoIdRef videoId
                    (set_activeAudioIdRef audioId s)))) as [Hp Hm].
  rewrite Hp, Hm. split; reflexivity.
Qed.

Lemma tool_result_data (fc : FunctionCall) (now : Z) (s s' : State)
      (r : string) :
  tool_result fc now s = Some (r, s') ->
  playback_core s' = playback_core s
  /\ logs s' = logs s
  /\ arOverlays s' = arOverlays s
  /\ (memories s = MemoryService.load (storage s) ->
      memories s' = MemoryService.load (storage s')).
Proof.
  unfold tool_result. intro H.
  destruct (jsval_eqb (fc_name fc) (JStr "setReminder"));
    destruct (jsval_eqb (fc_name fc) (JStr "toggleSmartHome"));
    destruct (jsval_eqb (fc_name fc) (JStr "saveToLongTermMemory"));
    destruct (fc_args fc); try discriminate;
    injection H as <- <-; repeat split; try reflexivity; auto.
Qed.

(** The events other than the session's messages and the audio
    continuations change neither playback nor the memory. *)
Lemma step_data (s : State) (e : Event) :
  match e with
  | EvOpen _ | EvMessage _ _ _ | EvDecoded _ | EvEnded _ => True
  | _ => playback_core (step s e) = playback_core s
         /\ memory_core (step s e) = memory_core s
  end.
Proof.
  destruct e; cbv beta iota delta [App.step]; try exact I.
  - apply handleDeviceSelection_data.
  - destruct (disconnect_data s) as [Hp [Hm _]]. now split.
  - apply onopen_resume_data.
  - apply onclose_data.
  - split; reflexivity.
  - apply fire_data.
Qed.

(** *** The playback clock *)

Lemma onmessage_any (a : Z) (msg : LiveServerMessage) (env : MessageEnv)
      (s : State) :
  onmessage a msg env s = s
  \/ onmessage a msg env s
     = onmessage (connectionAttemptIdRef s) msg env s.
Proof.
  destruct (Z.eqb (connectionAttemptIdRef s) a) eqn:E.
  - apply Z.eqb_eq in E. subst a. now right.
  - left. unfold App.onmessage. now rewrite E.
Qed.

Lemma playback_core_clock (s s' : State) :
  playback_core s' = playback_core s ->
  nextStartTimeRef s' = nextStartTimeRef s.
Proof. unfold playback_core. intro E. now injection E. Qed.

(** X9. While no event resets it ([onopen], an interruption), the
    playback clock never goes back, provided buffers have no negative
    duration: scheduling a segment only moves it forward, and teardown,
    close, reconnection and tool calls leave it where it is. *)
Theorem playback_clock_never_goes_back :
  (forall decoded d, decodeAudioData decoded = Some d -> 0 <= d) ->
  forall (s : State) (e : Event),
    resets_clock e = false ->
    nextStartTimeRef s <= nextStartTimeRef (step s e).
Proof.
  intros Hd s e He. generalize (step_data s e).
  destruct e as [au vi env| |a|outcome|a msg env|i|id|a|a|h env];
    cbv beta iota; intro Hs;
    try (rewrite (playback_core_clock _ _ (proj1 Hs)); apply Z.le_refl);
    cbv beta iota delta [App.step].
  - discriminate He.
  - change (interrupted msg = false) in He.
    destruct (onmessage_any a msg env s) as [E|E]; rewrite E;
      [apply Z.le_refl|].
    destruct (onmessage_payloads_rel decode Z nextStartTimeRef Z.le
                Z.le_refl Z.le_trans) with (s := s) (msg := msg) (env := env)
      as [mid [Hle Eq]].
    + intros. apply Z.le_refl.
    + intros d t s0. unfold App.playAudioResponse_begin.
      destruct (decode d); simpl; lia.
    + intros txt now s0. rewrite parseARObjects_appends. apply Z.le_refl.
    + intros fc now s0 r s' Ht. apply tool_result_data in Ht.
      rewrite (playback_core_clock _ _ (proj1 Ht)). apply Z.le_refl.
    + intros. apply Z.le_refl.
    + rewrite Eq, He. exact Hle.
  - unfold App.playAudioResponse_resume.
    destruct (nth_error (pendingDecodes s) i) as [decoded|];
      [|apply Z.le_refl].
    cbv zeta. destruct (decodeAudioData decoded) as [d|] eqn:E; simpl.
    + apply Hd in E. lia.
    + apply Z.le_refl.
  - apply Z.le_refl.
Qed.

(** *** The sources that play *)

Lemma sources_wf_same (s s' : State) :
  sourcesRef s' = sourcesRef s -> nextSourceId s' = nextSourceId s ->
  sources_wf s -> sources_wf s'.
Proof. unfold sources_wf. intros -> ->. tauto. Qed.

Lemma sources_wf_core (s s' : State) :
  playback_core s' = playback_core s -> sources_wf s -> sources_wf s'.
Proof.
  unfold playback_core. intro E. injection E as _ Hs Hn _ _.
  now apply sources_wf_same.
Qed.

(** Dropping sources keeps the identities of the others distinct. *)
Lemma distinct_ids_filter (keep : AudioSource -> bool)
      (srcs : list AudioSource) :
  NoDup (map src_id srcs) -> NoDup (map src_id (filter keep srcs)).
Proof.
  induction srcs as [|x srcs IH]; simpl; intro H; [constructor|].
  inversion H as [|? ? Hnotin Hnd]; subst.
  destruct (keep x); simpl; [|auto]. constructor; [|auto].
  intro Hin. apply Hnotin. apply in_map_iff in Hin.
  destruct Hin as [y [Hy Hin]]. apply filter_In in Hin.
  apply in_map_iff. exists y. tauto.
Qed.

Lemma sources_wf_step (s : State) (e : Event) :
  sources_wf s -> sources_wf (step s e).
Proof.
  intro Hwf. generalize (step_data s e).
  destruct e as [au vi env| |a|outcome|a msg env|i|id|a|a|h env];
    cbv beta iota; intro Hs;
    try exact (sources_wf_core _ _ (proj1 Hs) Hwf);
    cbv beta iota delta [App.step].
  - unfold onopen. destruct (negb _); [exact Hwf|].
    revert Hwf. apply sources_wf_same; reflexivity.
  - destruct (onmessage_any a msg env s) as [E|E]; rewrite E;
      [exact Hwf|].
    destruct (onmessage_payloads_rel decode _
                (fun s => (sourcesRef s, nextSourceId s)) eq
                (@eq_refl _) (@eq_trans _))
      with (s := s) (msg := msg) (env := env) as [mid [Hmid Eq]].
    + reflexivity.
    + intros d t s0. unfold App.playAudioResponse_begin.
      destruct (decode d); reflexivity.
    + intros txt now s0. now rewrite parseARObjects_appends.
    + intros fc now s0 r s' Ht. apply tool_result_data in Ht.
      destruct Ht as [Hp _]. unfold playback_core in Hp.
      injection Hp as _ Hsrc Hn _ _. now rewrite Hsrc, Hn.
    + reflexivity.
    + injection Hmid as Hsrc Hn. rewrite Eq.
      destruct (interrupted msg).
      * split; simpl; [constructor | intros src []].
      * revert Hwf. apply sources_wf_same; congruence.
  - unfold App.playAudioResponse_resume.
    destruct (nth_error (pendingDecodes s) i) as [decoded|]; [|exact Hwf].
    cbv zeta. destruct (decodeAudioData decoded) as [d|]; simpl.
    + destruct Hwf as [Hnd Hlt]. split; simpl.
      * rewrite map_app. simpl. apply NoDup_snoc; [exact Hnd|].
        intro Hin. apply in_map_iff in Hin. destruct Hin as [x [Hx Hin]].
        apply Hlt in Hin. lia.
      * intros src Hin. apply in_app_or in Hin.
        destruct Hin as [Hin|[<-|[]]]; [apply Hlt in Hin; lia | simpl; lia].
    + revert Hwf. apply sources_wf_same; reflexivity.
  - destruct Hwf as [Hnd Hlt]. split; simpl.
    + now apply distinct_ids_filter.
    + intros src Hin. apply filter_In in Hin. apply Hlt. tauto.
Qed.

Lemma reachable_sources_wf (s : State) : reachable s -> sources_wf s.
Proof.
  induction 1 as [|s e _ IH].
  - split; simpl; [constructor | intros src []].
  - now apply sources_wf_step.
Qed.

Lemma filter_absent_id (l : list AudioSource) (i : nat) :
  ~ In i (map src_id l) ->
  filter (fun x => negb (Nat.eqb (src_id x) i)) l = l.
Proof.
  induction l as [|z l IH]; simpl; intro H; [reflexivity|].
  destruct (Nat.eqb (src_id z) i) eqn:E; simpl.
  - apply Nat.eqb_eq in E. exfalso. apply H. now left.
  - f_equal. apply IH. intro Hin. apply H. now right.
Qed.

Lemma same_id_same_source (l : list AudioSource) (x y : AudioSource) :
  NoDup (map src_id l) -> In x l -> In y l -> src_id x = src_id y -> x = y.
Proof.
  induction l as [|z l IH]; intros Hnd Hx Hy E; [destruct Hx|].
  inversion Hnd as [|? ? Hnotin Hnd']; subst.
  destruct Hx as [->|Hx], Hy as [->|Hy]; try reflexivity.
  - exfalso. apply Hnotin. rewrite E. now apply in_map.
  - exfalso. apply Hnotin. rewrite <- E. now apply in_map.
  - now apply IH.
Qed.

Lemma filter_other_ids (l : list AudioSource) (src : AudioSource) :
  NoDup (map src_id l) -> In src l ->
  (forall x, In x (filter (fun x => negb (Nat.eqb (src_id x) (src_id src))) l)
             <-> In x l /\ x <> src)
  /\ S (List.length
          (filter (fun x => negb (Nat.eqb (src_id x) (src_id src))) l))
     = List.length l.
Proof.
  intros Hnd Hin. split.
  - intro x. rewrite filter_In. split; intros [Hx Hne]; split; try exact Hx.
    + intros ->. rewrite Nat.eqb_refl in Hne. discriminate.
    + apply Bool.negb_true_iff, Nat.eqb_neq. intro E. apply Hne.
      exact (same_id_same_source l x src Hnd Hx Hin E).
  - induction l as [|y l IH]; [destruct Hin|].
    inversion Hnd as [|? ? Hnotin Hnd']; subst.
    destruct Hin as [->|Hin]; simpl.
    + rewrite Nat.eqb_refl. simpl. now rewrite filter_absent_id.
    + destruct (Nat.eqb (src_id y) (src_id src)) eqn:E; simpl.
      * apply Nat.eqb_eq in E. exfalso. apply Hnotin. rewrite E.
        now apply in_map.
      * f_equal. now apply IH.
Qed.

(** X10. In every reachable state the sources that play have distinct
    identities, so when one of them ends, [onended] removes that source
    and no other. *)
Theorem ended_source_is_the_one_removed (s : State) (src : AudioSource) :
  reachable s -> In src (sourcesRef s) ->
  let s' := onended (src_id src) s in
  NoDup (map src_id (sourcesRef s))
  /\ (forall x, In x (sourcesRef s') <-> In x (sourcesRef s) /\ x <> src)
  /\ S (List.length (sourcesRef s')) = List.length (sourcesRef s).
Proof.
  intros Hr Hin s'. destruct (reachable_sources_wf s Hr) as [Hnd _].
  split; [exact Hnd|]. exact (filter_other_ids _ src Hnd Hin).
Qed.

(** *** The memory panel *)

Lemma memory_core_sync (s s' : State) :
  memory_core s' = memory_core s ->
  memories s = MemoryService.load (storage s) ->
  memories s' = MemoryService.load (storage s').
Proof.
  unfold memory_core. intro E. injection E as Hm Hs _. now rewrite Hm, Hs.
Qed.

(** X11. The memory panel mirrors the store: if [memories] holds what
    [load()] returns, as it does once the component has mounted, it still
    does after any event, tool calls that save a fact or throw included. *)
Theorem memories_mirror_storage (s : State) (e : Event) :
  memories s = MemoryService.load (storage s) ->
  memories (step s e) = MemoryService.load (storage (step s e)).
Proof.
  intro H. generalize (step_data s e).
  destruct e as [au vi env| |a|outcome|a msg env|i|id|a|a|h env];
    cbv beta iota; intro Hs;
    try exact (memory_core_sync _ _ (proj2 Hs) H);
    cbv beta iota delta [App.step].
  - unfold onopen. destruct (negb _); exact H.
  - destruct (onmessage_any a msg env s) as [E|E]; rewrite E; [exact H|].
    destruct (onmessage_payloads_rel decode Prop
                (fun s => memories s = MemoryService.load (storage s))
                (fun a b : Prop => a -> b))
      with (s := s) (msg := msg) (env := env) as [mid [Hmid Eq]];
      try (intros; tauto).
    + intros d t s0. unfold App.playAudioResponse_begin.
      destruct (decode d); intro H0; exact H0.
    + intros txt now s0. rewrite parseARObjects_appends. intro H0. exact H0.
    + intros fc now s0 r s' Ht. apply tool_result_data in Ht. tauto.
    + rewrite Eq. destruct (interrupted msg); exact (Hmid H).
  - unfold App.playAudioResponse_resume.
    destruct (nth_error (pendingDecodes s) i) as [decoded|]; [|exact H].
    cbv zeta. destruct (decodeAudioData decoded); exact H.
  - exact H.
Qed.

(** *** The log *)

Lemma connect_logs (audioId videoId : string) (env : ConnectEnv)
      (s : State) :
  exists l, logs (connect audioId videoId env s) = logs s ++ l.
Proof.
  unfold connect.
  destruct (ce_apiKey env), (ce_seenConnected env), (ce_audioSetupOk env),
    (ce_liveConnectError env); simpl;
    first [ exists []; now rewrite app_nil_r
          | rewrite <- ?app_assoc; eexists; reflexivity ].
Qed.

(** X12. The log is append-only: whatever the event, the entries already
    logged stay, in their order, and new ones only come after them. *)
Theorem log_is_append_only (s : State) (e : Event) :
  exists l, logs (step s e) = logs s ++ l.
Proof.
  destruct e as [au vi env| |a|outcome|a msg env|i|id|a|a|h env];
    cbv beta iota delta [App.step].
  - unfold handleDeviceSelection. cbv zeta.
    apply (connect_logs au vi env
             (set_isUserDisconnectingRef false
                (set_activeVideoIdRef vi (set_activeAudioIdRef au s)))).
  - destruct (disconnect_data s) as [_ [_ Hl]]. rewrite Hl. now eexists.
  - unfold onopen. destruct (negb _); simpl;
      [exists []; now rewrite app_nil_r | now eexists].
  - unfold onopen_resume. destruct outcome as [err|].
    + destruct (disconnect_data
                  (addLog ("传感器挂载失败: " ++ err)%string SYSTEM error s))
        as [_ [_ Hl]].
      rewrite Hl. simpl. rewrite <- app_assoc. now eexists.
    + destruct (startVideoStreaming_data (set_videoSrcObject true s))
        as [_ [_ Hl]].
      rewrite Hl. exists []. now rewrite app_nil_r.
  - destruct (onmessage_any a msg env s) as [E|E]; rewrite E;
      [exists []; now rewrite app_nil_r|].
    destruct (onmessage_payloads_rel decode _ logs
                (fun a b => exists l, b = a ++ l))
      with (s := s) (msg := msg) (env := env) as [mid [[l Hmid] Eq]].
    + intro x. exists []. now rewrite app_nil_r.
    + intros x y z [l1 ->] [l2 ->]. exists (l1 ++ l2). now rewrite app_assoc.
    + intros. now eexists.
    + intros d t s0. unfold App.playAudioResponse_begin.
      exists []. rewrite app_nil_r. destruct (decode d); reflexivity.
    + intros txt now s0. rewrite parseARObjects_appends.
      exists []. now rewrite app_nil_r.
    + intros fc now s0 r s' Ht. apply tool_result_data in Ht.
      destruct Ht as [_ [Hl _]]. exists []. now rewrite app_nil_r.
    + intros. exists []. now rewrite app_nil_r.
    + rewrite Eq. destruct (interrupted msg); simpl; rewrite Hmid.
      * rewrite <- app_assoc. now eexists.
      * now eexists.
  - exists []. rewrite app_nil_r. unfold App.playAudioResponse_resume.
    destruct (nth_error (pendingDecodes s) i) as [decoded|]; [|reflexivity].
    cbv zeta. destruct (decodeAudioData decoded); reflexivity.
  - exists []. now rewrite app_nil_r.
  - unfold onclose. destruct (negb (Z.eqb _ a));
      [exists []; now rewrite app_nil_r|].
    destruct (negb (isUserDisconnectingRef s)).
    + cbv zeta. simpl.
      destruct (frameIntervalRef s) as [[|h]|]; simpl;
        destruct (reconnectTimeoutRef s) as [[|h']|]; now eexists.
    + destruct (cleanup_data (addLog "会话已正常结束。" SYSTEM info s))
        as [_ [_ Hl]].
      rewrite Hl. now eexists.
  - exists []. now rewrite app_nil_r.
  - unfold fire. destruct (find _ (timers s)) as [t|];
      [|exists []; now rewrite app_nil_r].
    destruct (kind t); [|exists []; now rewrite app_nil_r].
    apply (connect_logs _ _ env (clearTimer h s)).
Qed.

(** *** Text parts *)

Lemma parts_overlays (ps : list Part) (now : Z) (s : State) :
  arOverlays
    (fold_left
       (fun acc p =>
          match truthy (text p) with
          | Some t => parseARObjects t now acc
          | None => acc
          end) ps s)
  = arOverlays s ++ flat_map (part_overlays now) ps.
Proof.
  revert s. induction ps as [|p ps IH]; intro s; simpl;
    [now rewrite app_nil_r|].
  rewrite IH. unfold part_overlays at 2.
  destruct (truthy (text p)) as [t|]; [|reflexivity].
  rewrite parseARObjects_appends. simpl. now rewrite app_assoc.
Qed.

(** X13. A message of the current attempt adds to the overlays what each
    of its text parts yields on its own, part after part; audio, tool
    calls and the interruption flag add and remove none.  A token that is
    split over two parts is therefore not found. *)
Theorem onmessage_parses_each_part_alone
        (s : State) (msg : LiveServerMessage) (env : MessageEnv) :
  arOverlays (onmessage (connectionAttemptIdRef s) msg env s)
  = arOverlays s
      ++ flat_map (part_overlays (me_now env))
                  (match parts msg with Some ps => ps | None => [] end).
Proof.
  unfold App.onmessage. rewrite Z.eqb_refl. cbv zeta. simpl negb. cbv iota.
  assert (Haudio :
            arOverlays
              (match truthy (audioData msg) with
               | Some data =>
                   if (is_some (audioContextRef s) && analyserRef s)%bool
                   then playAudioResponse_begin data (me_ctxTime env) s
                   else s
               | None => s
               end) = arOverlays s).
  { destruct (truthy (audioData msg)); [|reflexivity].
    destruct (is_some (audioContextRef s) && analyserRef s)%bool;
      [|reflexivity].
    unfold App.playAudioResponse_begin. destruct (decode s0); reflexivity. }
  assert (Htools : forall calls a now s0,
             arOverlays (state_of (handleToolCalls calls a now s0))
             = arOverlays s0).
  { intros calls a now s0. symmetry.
    apply (handleToolCalls_rel _ arOverlays eq (@eq_refl _) (@eq_trans _)).
    - reflexivity.
    - intros fc now' s1 r s' Ht. apply tool_result_data in Ht.
      symmetry. tauto.
    - reflexivity. }
  destruct (interrupted msg); simpl arOverlays;
    (destruct (toolCall msg) as [calls|]; [rewrite Htools|]);
    (destruct (parts msg) as [ps|];
     [rewrite parts_overlays|simpl; rewrite app_nil_r]);
    exact Haudio || (rewrite Haudio; reflexivity).
Qed.

(** *** Tool calls, continued *)





(** *** connect and reconnection *)

(** X16. A [connect] that stops at an error exit (no API key, audio
    contexts that do not come up, [ai.live.connect] throwing) opens no
    session and logs an error as its last entry, yet it has already made
    its own identifier the current attempt.  Without a key it does not
    enter the connecting state; after an audio failure it stays in it;
    after a throw it leaves it. *)
Theorem failed_connect_opens_no_session
        (audioId videoId : string) (env : ConnectEnv) (s : State) :
  connect_fails env = true ->
  let s' := connect audioId videoId env s in
  sessionRef s' = sessionRef s
  /\ isConnected s' = isConnected s
  /\ connectionAttemptIdRef s' = ce_now env
  /\ isConnecting s' = (if ce_apiKey env
                        then negb (ce_audioSetupOk env)
                        else isConnecting s)
  /\ exists before m, logs s' = before ++ [mkLogEntry SYSTEM m error].
Proof.
  unfold connect_fails, connect. intro H.
  destruct (ce_apiKey env), (ce_seenConnected env), (ce_audioSetupOk env),
    (ce_liveConnectError env); try discriminate H; simpl;
    repeat split; eexists _, _; reflexivity.
Qed.

Lemma connect_success (audioId videoId : string) (env : ConnectEnv)
      (s : State) :
  connect_fails env = false ->
  sessionRef (connect audioId videoId env s)
  = Some (mkSession (ce_now env) audioId videoId
            (instruction_head
               ++ MemoryService.getContextString (storage s))%string).
Proof.
  unfold connect_fails, connect. intro H.
  destruct (ce_apiKey env), (ce_seenConnected env), (ce_audioSetupOk env),
    (ce_liveConnectError env); try discriminate H; reflexivity.
Qed.

Lemma connect_refs (audioId videoId : string) (env : ConnectEnv)
      (s : State) :
  isUserDisconnectingRef (connect audioId videoId env s)
  = isUserDisconnectingRef s
  /\ activeAudioIdRef (connect audioId videoId env s) = activeAudioIdRef s
  /\ activeVideoIdRef (connect audioId videoId env s) = activeVideoIdRef s
  /\ nextHandle (connect audioId videoId env s) = nextHandle s.
Proof.
  unfold connect.
  destruct (ce_apiKey env), (ce_seenConnected env), (ce_audioSetupOk env),
    (ce_liveConnectError env); repeat split; reflexivity.
Qed.

Lemma fire_after_unexpected_close (s : State) (env : ConnectEnv) :
  timers_wf s -> isUserDisconnectingRef s = false ->
  let s1 := onclose (connectionAttemptIdRef s) s in
  fire (nextHandle s) env s1
  = connect (activeAudioIdRef s) (activeVideoIdRef s) env
            (clearTimer (nextHandle s) s1).
Proof.
  intros Hwf Hu s1.
  destruct (onclose_unexpected s Hwf Hu)
    as [old [Ht [Hold [_ [Ha [Hv _]]]]]].
  fold s1 in Ht, Ha, Hv. unfold fire. rewrite Ht.
  rewrite (find_fresh old (nextHandle s) ReconnectTimeout 1500).
  - simpl. now rewrite Ha, Hv.
  - intros x Hx. destruct (wf_range s Hwf x (proj1 (Hold x Hx))). lia.
Qed.

Lemma memory_core_storage (s s' : State) :
  memory_core s' = memory_core s -> storage s' = storage s.
Proof. unfold memory_core. intro E. now injection E. Qed.

(** X17. The automatic reconnect opens its session with the devices the
    user selected last and with the memory as it is stored then: after
    [handleDeviceSelection(audioId, videoId)], an unexpected close of that
    attempt and the firing of the reconnect timer, a [connect] that
    succeeds keeps a session for [audioId] and [videoId] whose system
    instruction carries the current context string. *)
Theorem reconnect_reuses_selected_devices
        (s : State) (audioId videoId : string) (env1 env2 : ConnectEnv) :
  reachable s ->
  connect_fails env2 = false ->
  let s1 := handleDeviceSelection audioId videoId env1 s in
  let s2 := onclose (ce_now env1) s1 in
  let s3 := fire (nextHandle s1) env2 s2 in
  reconnect_timers s2 = [mkTimer (nextHandle s1) ReconnectTimeout 1500]
  /\ sessionRef s3
     = Some (mkSession (ce_now env2) audioId videoId
               (instruction_head
                  ++ MemoryService.getContextString (storage s))%string)
  /\ connectionAttemptIdRef s3 = ce_now env2.
Proof.
  intros Hr Hok s1 s2 s3.
  assert (Hr1 : reachable s1)
    by exact (reachable_step decode decodeAudioData s
                (EvSelectDevices audioId videoId env1) Hr).
  assert (Hwf1 := reachable_timers_wf decode decodeAudioData s1 Hr1).
  assert (Hid : connectionAttemptIdRef s1 = ce_now env1)
    by apply connect_mints_clock_reading.
  destruct (connect_refs audioId videoId env1
              (set_isUserDisconnectingRef false
                 (set_activeVideoIdRef videoId
                    (set_activeAudioIdRef audioId s))))
    as [Hu [Ha [Hv _]]].
  change (isUserDisconnectingRef s1 = false) in Hu.
  change (activeAudioIdRef s1 = audioId) in Ha.
  change (activeVideoIdRef s1 = videoId) in Hv.
  assert (Hs2 : s2 = onclose (connectionAttemptIdRef s1) s1)
    by (unfold s2; now rewrite Hid).
  destruct (onclose_unexpected s1 Hwf1 Hu) as [old [Ht [Hold _]]].
  rewrite <- Hs2 in Ht.
  assert (Hfire := fire_after_unexpected_close s1 env2 Hwf1 Hu).
  cbv zeta in Hfire. rewrite <- Hs2 in Hfire. fold s3 in Hfire.
  rewrite Ha, Hv in Hfire.
  split; [|split].
  - unfold reconnect_timers. rewrite Ht, filter_app. simpl.
    replace (filter _ old) with (@nil Timer); [reflexivity|].
    symmetry. clear - Hold. induction old as [|t l IH]; simpl; [reflexivity|].
    destruct (kind t) eqn:Ek.
    + exfalso. now apply (proj2 (Hold t (or_introl eq_refl))).
    + apply IH. intros t' Hin. apply Hold. now right.
  - assert (Hst : storage (clearTimer (nextHandle s1) s2) = storage s).
    { change (storage (clearTimer (nextHandle s1) s2)) with (storage s2).
      rewrite Hs2.
      rewrite (memory_core_storage _ _ (proj2 (onclose_data _ s1))).
      exact (memory_core_storage _ _
               (proj2 (handleDeviceSelection_data audioId videoId env1 s))). }
    rewrite Hfire, (connect_success _ _ env2 _ Hok), Hst. reflexivity.
  - rewrite Hfire. apply connect_mints_clock_reading.
Qed.

(** *** The frame sampler *)

Lemma filter_none {A : Type} (f : A -> bool) (l : list A) :
  (forall x, In x l -> f x = false) -> filter f l = [].
Proof.
  induction l as [|x l IH]; simpl; intro H; [reflexivity|].
  rewrite (H x (or_introl eq_refl)). apply IH. intros y Hy. apply H. now right.
Qed.

Lemma no_frames (s : State) :
  (forall t, In t (timers s) -> kind t <> FrameInterval) ->
  frame_timers s = [].
Proof.
  intro H. apply filter_none. intros t Hin.
  destruct (kind t) eqn:Ek; [reflexivity|]. exfalso. now apply (H t).
Qed.

Lemma frames_point_to_ref (s : State) (t : Timer) :
  timers_wf s -> In t (frame_timers s) -> frameIntervalRef s = Some (handle t).
Proof.
  intros Hwf Hin. apply filter_In in Hin. destruct Hin as [Hin Hk].
  apply (wf_frames s Hwf t Hin). now destruct (kind t).
Qed.

(** X18. In every reachable state at most one frame sampler is pending,
    and it is the one [frameIntervalRef] holds. *)
Theorem at_most_one_frame_sampler (s : State) :
  reachable s ->
  (List.length (frame_timers s) <= 1)%nat
  /\ (forall t, In t (frame_timers s) -> frameIntervalRef s = Some (handle t)).
Proof.
  intro Hr. assert (Hwf := reachable_timers_wf decode decodeAudioData s Hr).
  split; [|intros t Hin; now apply frames_point_to_ref].
  assert (Hp := frames_point_to_ref s).
  assert (Hd : NoDup (map handle (frame_timers s))).
  { unfold frame_timers. generalize (wf_nodup s Hwf).
    induction (timers s) as [|t l IH]; simpl; intro Hnd; [constructor|].
    inversion Hnd as [|? ? Hnotin Hnd']; subst.
    destruct (kind t); [now apply IH|]. simpl. constructor; [|now apply IH].
    intro Hin. apply Hnotin. apply in_map_iff in Hin.
    destruct Hin as [x [E Hx]]. apply filter_In in Hx.
    apply in_map_iff. exists x. tauto. }
  destruct (frame_timers s) as [|t1 [|t2 l]]; simpl; try lia.
  exfalso. assert (E1 := Hp t1 Hwf (or_introl eq_refl)).
  assert (E2 := Hp t2 Hwf (or_intror (or_introl eq_refl))).
  inversion Hd as [|? ? Hnotin _]; subst. apply Hnotin. left. congruence.
Qed.

(** X19. [startVideoStreaming] replaces the sampler: whatever was pending,
    afterwards exactly one frame sampler is, the new one, with a period of
    1000 ms, and [frameIntervalRef] holds its handle. *)
Theorem startVideoStreaming_replaces_sampler (s : State) :
  timers_wf s ->
  frame_timers (startVideoStreaming s)
  = [mkTimer (nextHandle s) FrameInterval 1000]
  /\ frameIntervalRef (startVideoStreaming s) = Some (nextHandle s).
Proof.
  intro Hwf. split.
  - unfold frame_timers. rewrite (proj1 (startVideoStreaming_view s)).
    rewrite filter_app. rewrite filter_none; [reflexivity|].
    intros t Hin. destruct (kind t) eqn:Ek; [reflexivity|].
    exfalso. now apply (cleared_frames s t Hwf Hin).
  - unfold startVideoStreaming. cbv zeta.
    destruct (clear_if_set_view (frameIntervalRef s) s)
      as [_ [_ [Hn _]]]. simpl. now rewrite Hn.
Qed.

Lemma no_frames_cleanup (s : State) (t : Timer) :
  timers_wf s -> In t (timers (cleanup s)) -> kind t <> FrameInterval.
Proof.
  intros Hwf Hin. rewrite (proj1 (cleanup_view s)) in Hin.
  now apply (cleared_frames s).
Qed.

Lemma disconnect_flags (s : State) :
  timers (disconnect s)
  = timers (cleanup (clear_if_set (reconnectTimeoutRef s)
                       (set_isUserDisconnectingRef true s)))
  /\ isConnected (disconnect s) = false
  /\ isStreamingRef (disconnect s) = false
  /\ videoSrcObject (disconnect s) = false.
Proof.
  unfold disconnect, cleanup. simpl.
  destruct (reconnectTimeoutRef s) as [[|h]|]; simpl;
    destruct (frameIntervalRef s) as [[|h']|]; repeat split; reflexivity.
Qed.

Lemma no_frames_disconnect (s : State) (t : Timer) :
  timers_wf s -> In t (timers (disconnect s)) -> kind t <> FrameInterval.
Proof.
  intros Hwf. rewrite (proj1 (disconnect_flags s)).
  apply no_frames_cleanup. apply timers_wf_clear_if_set. revert Hwf.
  apply timers_wf_same; reflexivity.
Qed.

Lemma clear_if_set_sub (r : option nat) (s : State) (t : Timer) :
  In t (timers (clear_if_set r s)) -> In t (timers s).
Proof. intro H. now apply clear_if_set_timers in H. Qed.

Lemma no_frames_onclose (s : State) (t : Timer) :
  timers_wf s -> In t (timers (onclose (connectionAttemptIdRef s) s)) ->
  kind t <> FrameInterval.
Proof.
  intro Hwf. unfold onclose. rewrite Z.eqb_refl. cbv beta iota delta [negb].
  destruct (isUserDisconnectingRef s).
  - apply no_frames_cleanup. revert Hwf. apply timers_wf_same; reflexivity.
  - cbv zeta.
    set (s1 := set_isStreamingRef false
                 (addLog "链路波动，正在重新校准..." SYSTEM warning s)).
    assert (Hwf1 : timers_wf s1)
      by (revert Hwf; apply timers_wf_same; reflexivity).
    set (s2 := clear_if_set (frameIntervalRef s1) s1).
    set (s3 := clear_if_set (reconnectTimeoutRef s2) s2).
    intro Hin.
    change (In t (timers s3 ++ [mkTimer (nextHandle s3) ReconnectTimeout 1500]))
      in Hin.
    apply in_app_or in Hin. destruct Hin as [Hin|[<-|[]]]; [|discriminate].
    apply clear_if_set_sub in Hin. now apply (cleared_frames s1).
Qed.

(** X20. Teardown stops the sampler: after [cleanup], after [disconnect]
    and after the close of the current attempt, wanted or not, no frame
    sampler is pending. *)
Theorem teardown_stops_sampler (s : State) :
  timers_wf s ->
  frame_timers (cleanup s) = []
  /\ frame_timers (disconnect s) = []
  /\ frame_timers (onclose (connectionAttemptIdRef s) s) = [].
Proof.
  intro Hwf. split; [|split]; apply no_frames; intros t Hin.
  - now apply (no_frames_cleanup s).
  - now apply (no_frames_disconnect s).
  - now apply (no_frames_onclose s).
Qed.

(** X21. When the camera or the microphone cannot be mounted, [onopen]
    disconnects as the user would: the error and the disconnect are
    logged, in that order, the session flags are down, no timer of either
    kind is pending, and whatever callbacks come later, short of the user
    connecting again, no reconnect is scheduled. *)
Theorem media_failure_disconnects (s : State) (err : string) :
  timers_wf s ->
  let s' := onopen_resume (Some err) s in
  logs s' = logs s ++ [mkLogEntry SYSTEM ("传感器挂载失败: " ++ err)%string error;
                       mkLogEntry SYSTEM "系统脱离。" warning]
  /\ isUserDisconnectingRef s' = true
  /\ isConnected s' = false /\ isStreamingRef s' = false
  /\ videoSrcObject s' = false
  /\ frame_timers s' = [] /\ reconnect_timers s' = []
  /\ forall es : list Event,
       forallb (fun e => negb (is_select e)) es = true ->
       reconnect_timers (run s' es) = [].
Proof.
  intros Hwf s'.
  set (s0 := addLog ("传感器挂载失败: " ++ err)%string SYSTEM error s).
  assert (Hwf0 : timers_wf s0)
    by (exact (timers_wf_core s s0 (proj1 (addLog_cores _ _ _ s)) Hwf)).
  change s' with (disconnect s0).
  destruct (quiet_disconnect s0 Hwf0) as [Hq _].
  assert (Hwf' := timers_wf_disconnect s0 Hwf0).
  destruct (disconnect_flags s0) as [_ [Hc [Hst Hv]]].
  split.
  { rewrite (proj2 (proj2 (disconnect_data s0))). unfold s0, addLog.
    simpl. now rewrite <- app_assoc. }
  split; [exact (proj1 Hq)|].
  split; [exact Hc|]. split; [exact Hst|]. split; [exact Hv|].
  split; [|split; [exact (proj2 Hq)|]].
  - apply no_frames. intros t Hin. now apply (no_frames_disconnect s0).
  - intros es Hes.
    exact (proj2 (proj1 (quiet_run decode decodeAudioData es (disconnect s0)
                           Hwf' Hq Hes))).
Qed.

(** X22. A second [disconnect] changes nothing but the log, to which it
    adds its line once more. *)
Theorem disconnect_twice (s : State) :
  disconnect (disconnect s)
  = addLog "系统脱离。" SYSTEM warning (disconnect s).
Proof.
  assert (F : forall (f : Timer -> bool) (l : list Timer),
             filter f (filter f l) = filter f l).
  { intros f l. induction l as [|x l IH]; simpl; [reflexivity|].
    destruct (f x) eqn:E; simpl; rewrite ?E, IH; reflexivity. }
  assert (G : forall (f g : Timer -> bool) (l : list Timer),
             filter g (filter f (filter g (filter f l)))
             = filter g (filter f l)).
  { intros f g l. induction l as [|x l IH]; simpl; [reflexivity|].
    destruct (f x) eqn:E; simpl; [|exact IH].
    destruct (g x) eqn:E'; simpl; [|exact IH].
    rewrite E. simpl. rewrite E'. now rewrite IH. }
  destruct s. unfold disconnect, cleanup, addLog. cbv zeta.
  destruct reconnectTimeoutRef0 as [[|h]|];
    destruct frameIntervalRef0 as [[|h']|];
    cbv - [filter app Nat.eqb negb close_context];
    rewrite ?F, ?G;
    destruct audioContextRef0 as [[]|];
    destruct inputContextRef0 as [[]|]; reflexivity.
Qed.

(** *** Segments that do not decode *)

(** X23. A segment that fails to decode plays nothing: no source is added
    and no identifier is used up.  Text that is not base64 leaves the
    playback clock alone; bytes the browser cannot turn into a buffer
    have already raised it to [ctx.currentTime], and it stays there. *)
Theorem undecodable_segment_plays_nothing
        (s : State) (data : string) (ctxTime : Z) :
  match decode data with
  | None => True
  | Some decoded => decodeAudioData decoded = None
  end ->
  let s' := playAudioResponse data ctxTime s in
  sourcesRef s' = sourcesRef s
  /\ nextSourceId s' = nextSourceId s
  /\ pendingDecodes s' = pendingDecodes s
  /\ stopped s' = stopped s
  /\ nextStartTimeRef s'
     = match decode data with
       | None => nextStartTimeRef s
       | Some _ => Z.max (nextStartTimeRef s) ctxTime
       end.
Proof.
  unfold App.playAudioResponse, App.playAudioResponse_begin,
    App.playAudioResponse_resume.
  destruct (decode data) as [decoded|]; intro H.
  - simpl. rewrite nth_error_snoc. simpl. rewrite remove_nth_snoc, H.
    simpl. auto.
  - rewrite (proj2 (nth_error_None _ _) (Nat.le_refl _)). auto.
Qed.

(** *** A manual connect while a reconnect is pending *)





(** *** What touches the connection *)

Lemma tool_result_connection (fc : FunctionCall) (now : Z) (s s' : State)
      (r : string) :
  tool_result fc now s = Some (r, s') ->
  connection_core s' = connection_core s.
Proof.
  unfold tool_result. intro H.
  destruct (jsval_eqb (fc_name fc) (JStr "setReminder"));
    destruct (jsval_eqb (fc_name fc) (JStr "toggleSmartHome"));
    destruct (jsval_eqb (fc_name fc) (JStr "saveToLongTermMemory"));
    destruct (fc_args fc); try discriminate;
    injection H as <- <-; reflexivity.
Qed.

Lemma connection_core_session (s s' : State) :
  connection_core s' = connection_core s -> sessionRef s' = sessionRef s.
Proof. unfold connection_core. intro E. now injection E. Qed.

Lemma onmessage_session
      (a : Z) (msg : LiveServerMessage) (env : MessageEnv) (s : State) :
  sessionRef (onmessage a msg env s) = sessionRef s.
Proof.
  destruct (onmessage_any a msg env s) as [E|E]; rewrite E; [reflexivity|].
  destruct (onmessage_payloads_rel decode _ sessionRef (fun x y => y = x))
    with (s := s) (msg := msg) (env := env) as [mid [Hmid Eq]];
    try (intros; reflexivity).
  - intros x y z H1 H2. congruence.
  - intros d t s0. unfold App.playAudioResponse_begin.
    destruct (decode d); reflexivity.
  - intros txt now s0. rewrite parseARObjects_appends. reflexivity.
  - intros fc now s0 r s' Ht.
    exact (connection_core_session _ _ (tool_result_connection _ _ _ _ _ Ht)).
  - rewrite Eq. destruct (interrupted msg); exact Hmid.
Qed.

(** X28. A server message never touches the connection: whatever it
    carries (audio, text, tool calls, an interruption), the timers, the
    attempt, the selected devices, the session held, the session flags,
    the audio contexts and the camera stream are as before. *)
Theorem messages_leave_connection_alone
        (a : Z) (msg : LiveServerMessage) (env : MessageEnv) (s : State) :
  connection_core (onmessage a msg env s) = connection_core s.
Proof.
  destruct (onmessage_any a msg env s) as [E|E]; rewrite E; [reflexivity|].
  destruct (onmessage_payloads_rel decode _ connection_core
              (fun x y => y = x))
    with (s := s) (msg := msg) (env := env) as [mid [Hmid Eq]];
    try (intros; reflexivity).
  - intros x y z H1 H2. congruence.
  - intros d t s0. unfold App.playAudioResponse_begin.
    destruct (decode d); reflexivity.
  - intros txt now s0. rewrite parseARObjects_appends. reflexivity.
  - intros fc now s0 r s' Ht. exact (tool_result_connection _ _ _ _ _ Ht).
  - rewrite Eq. destruct (interrupted msg); [|exact Hmid].
    rewrite <- Hmid. reflexivity.
Qed.

Lemma connect_failure_session (audioId videoId : string) (env : ConnectEnv)
      (s : State) :
  connect_fails env = true ->
  sessionRef (connect audioId videoId env s) = sessionRef s.
Proof.
  unfold connect_fails, connect. intro H.
  destruct (ce_apiKey env), (ce_seenConnected env), (ce_audioSetupOk env),
    (ce_liveConnectError env); try discriminate H; reflexivity.
Qed.

Lemma teardown_session (s : State) :
  sessionRef (cleanup s) = sessionRef s
  /\ sessionRef (disconnect s) = sessionRef s
  /\ sessionRef (startVideoStreaming s) = sessionRef s.
Proof.
  unfold disconnect, cleanup, startVideoStreaming. simpl.
  destruct (reconnectTimeoutRef s) as [[|h]|]; simpl;
    destruct (frameIntervalRef s) as [[|h']|]; repeat split; reflexivity.
Qed.

Lemma onclose_session (a : Z) (s : State) :
  sessionRef (onclose a s) = sessionRef s.
Proof.
  unfold onclose. destruct (negb (Z.eqb _ a)); [reflexivity|].
  destruct (negb (isUserDisconnectingRef s)).
  - cbv zeta. simpl.
    destruct (frameIntervalRef s) as [[|h]|]; simpl;
      destruct (reconnectTimeoutRef s) as [[|h']|]; reflexivity.
  - now rewrite (proj1 (teardown_session _)).
Qed.

(** X29. Only a [connect] that succeeds writes [sessionRef]: after any
    other event the ref holds what it held, so neither [disconnect] nor a
    close nor a failed connect clears it; a [connect] that succeeds, from
    the device selector or from the reconnect timer, stores the session
    of its own attempt, opened with the memory as it was stored then. *)
Theorem session_ref_written_by_connect_only (s : State) (e : Event) :
  sessionRef (step s e) = sessionRef s
  \/ exists audioId videoId env,
       match e with
       | EvSelectDevices _ _ env' | EvTimer _ env' => env' = env
       | _ => False
       end
       /\ connect_fails env = false
       /\ sessionRef (step s e)
          = Some (mkSession (ce_now env) audioId videoId
                    (instruction_head
                       ++ MemoryService.getContextString (storage s))%string)
       /\ connectionAttemptIdRef (step s e) = ce_now env.
Proof.
  destruct e as [au vi env| |a|outcome|a msg env|i|id|a|a|h env];
    cbv beta iota delta [App.step].
  - unfold handleDeviceSelection. cbv zeta.
    destruct (connect_fails env) eqn:Hf.
    + left. now rewrite (connect_failure_session _ _ _ _ Hf).
    + right. exists au, vi, env. split; [reflexivity|]. split; [exact Hf|].
      split; [|apply connect_mints_clock_reading].
      now rewrite (connect_success _ _ _ _ Hf).
  - left. exact (proj1 (proj2 (teardown_session s))).
  - left. unfold onopen. destruct (negb _); reflexivity.
  - left. unfold onopen_resume. destruct outcome as [err|].
    + now rewrite (proj1 (proj2 (teardown_session _))).
    + now rewrite (proj2 (proj2 (teardown_session _))).
  - left.
    apply onmessage_session.
  - left. unfold App.playAudioResponse_resume.
    destruct (nth_error (pendingDecodes s) i) as [decoded|]; [|reflexivity].
    cbv zeta. destruct (decodeAudioData decoded); reflexivity.
  - left. reflexivity.
  - left. apply onclose_session.
  - left. reflexivity.
  - unfold fire. destruct (find _ (timers s)) as [t|]; [|now left].
    destruct (kind t); [|now left].
    destruct (connect_fails env) eqn:Hf.
    + left. now rewrite (connect_failure_session _ _ _ _ Hf).
    + right. exists (activeAudioIdRef s), (activeVideoIdRef s), env.
      split; [reflexivity|]. split; [exact Hf|].
      split; [|apply connect_mints_clock_reading].
      now rewrite (connect_success _ _ _ _ Hf).
Qed.

End SessionMore.

(* ------------------------------------------------------------------ *)
(** ** Runs of the further properties *)

Section RunsMore.
Import App.

Local Abbreviation step := (App.step sample_decode sample_decodeAudioData).
Local Abbreviation run := (App.run sample_decode sample_decodeAudioData).
Local Abbreviation reachable :=
  (App.reachable sample_decode sample_decodeAudioData).


Lemma playback_clock_never_goes_back_witness :
  let env := mkConnectEnv 1000 true false true None in
  let s := run initial [EvSelectDevices "mic" "cam" env; EvOpen 1000;
                        EvMedia None] in
  let e := EvMessage 1000
             (mkMessage (Some [mkPart None (Some "abcdefgh")]) None false)
             (mkMessageEnv 50 1001) in
  resets_clock e = false
  /\ nextStartTimeRef s <= nextStartTimeRef (step s e).
Proof.
  intros env s e. assert (He : resets_clock e = false) by reflexivity.
  split; [exact He|].
  apply (playback_clock_never_goes_back sample_decode sample_decodeAudioData);
    [|exact He].
  intros decoded d H. unfold sample_decodeAudioData in H.
  injection H as <-. apply Z.div_pos; lia.
Defined.

Lemma ended_source_is_the_one_removed_witness :
  let env := mkConnectEnv 1000 true false true None in
  let audio d := mkMessage (Some [mkPart None (Some d)]) None false in
  let s := run initial [EvSelectDevices "mic" "cam" env; EvOpen 1000;
                        EvMedia None;
                        EvMessage 1000 (audio "abcdefgh") (mkMessageEnv 50 1001);
                        EvDecoded 0;
                        EvMessage 1000 (audio "abcd") (mkMessageEnv 51 1002);
                        EvDecoded 0] in
  let src := mkAudioSource 0 50 4 in
  In src (sourcesRef s)
  /\ sourcesRef (onended (src_id src) s) = [mkAudioSource 1 54 2]
  /\ S (List.length (sourcesRef (onended (src_id src) s)))
     = List.length (sourcesRef s).
Proof.
  intros env audio s src.
  assert (Hin : In src (sourcesRef s)) by (vm_compute; left; reflexivity).
  assert (Hr : reachable s)
    by (apply reachable_run; apply reachable_initial).
  split; [exact Hin|]. split; [vm_compute; reflexivity|].
  exact (proj2 (proj2 (ended_source_is_the_one_removed
                         sample_decode sample_decodeAudioData s src Hr Hin))).
Defined.

Lemma memories_mirror_storage_witness :
  let call := mkFunctionCall (JStr "c1") (JStr "saveToLongTermMemory")
                (Some [("key", JStr "city"); ("value", JStr "Rome")]) in
  let e := EvMessage 0 (mkMessage None (Some [call]) false)
                     (mkMessageEnv 5 77) in
  memories initial = MemoryService.load (storage initial)
  /\ memories (step initial e) = [mkMemoryItem (JStr "city") (JStr "Rome") 77]
  /\ memories (step initial e) = MemoryService.load (storage (step initial e)).
Proof.
  intros call e.
  assert (H : memories initial = MemoryService.load (storage initial))
    by reflexivity.
  split; [exact H|]. split; [vm_compute; reflexivity|].
  exact (memories_mirror_storage sample_decode sample_decodeAudioData
                                 initial e H).
Defined.



Lemma failed_connect_opens_no_session_witness :
  let env := mkConnectEnv 1000 false false true None in
  let s' := connect "mic" "cam" env initial in
  connect_fails env = true
  /\ sessionRef s' = None
  /\ connectionAttemptIdRef s' = 1000
  /\ isConnecting s' = false.
Proof.
  intros env s'. assert (H : connect_fails env = true) by reflexivity.
  split; [exact H|].
  destruct (failed_connect_opens_no_session "mic" "cam" env initial H)
    as [Hs [_ [Hid [Hc _]]]].
  split; [exact Hs|]. split; [exact Hid | exact Hc].
Defined.

Lemma reconnect_reuses_selected_devices_witness :
  let env1 := mkConnectEnv 1000 true false true None in
  let env2 := mkConnectEnv 3000 true true true None in
  let s1 := handleDeviceSelection "mic" "cam" env1 initial in
  let s2 := onclose 1000 s1 in
  let s3 := fire (nextHandle s1) env2 s2 in
  connect_fails env2 = false
  /\ sessionRef s3
     = Some (mkSession 3000 "mic" "cam"
               (instruction_head
                  ++ MemoryService.getContextString (storage initial))%string)
  /\ connectionAttemptIdRef s3 = 3000.
Proof.
  intros env1 env2 s1 s2 s3.
  assert (H : connect_fails env2 = false) by reflexivity.
  split; [exact H|].
  exact (proj2 (reconnect_reuses_selected_devices
                  sample_decode sample_decodeAudioData initial "mic" "cam"
                  env1 env2 (reachable_initial _ _) H)).
Defined.

Lemma at_most_one_frame_sampler_witness :
  let env := mkConnectEnv 1000 true false true None in
  let s := run initial [EvSelectDevices "mic" "cam" env; EvOpen 1000;
                        EvMedia None; EvMedia None] in
  frame_timers s = [mkTimer 2 FrameInterval 1000]
  /\ (List.length (frame_timers s) <= 1)%nat.
Proof.
  intros env s. split; [vm_compute; reflexivity|].
  exact (proj1 (at_most_one_frame_sampler
                  sample_decode sample_decodeAudioData s
                  (reachable_run _ _ initial _ (reachable_initial _ _)))).
Defined.

Lemma startVideoStreaming_replaces_sampler_witness :
  let env := mkConnectEnv 1000 true false true None in
  let s := run initial [EvSelectDevices "mic" "cam" env; EvOpen 1000;
                        EvMedia None] in
  frame_timers s = [mkTimer 1 FrameInterval 1000]
  /\ frame_timers (startVideoStreaming s)
     = [mkTimer (nextHandle s) FrameInterval 1000]
  /\ frameIntervalRef (startVideoStreaming s) = Some (nextHandle s).
Proof.
  intros env s. split; [vm_compute; reflexivity|].
  exact (startVideoStreaming_replaces_sampler s
           (reachable_timers_wf sample_decode sample_decodeAudioData s
              (reachable_run _ _ initial _ (reachable_initial _ _)))).
Defined.

Lemma teardown_stops_sampler_witness :
  let env := mkConnectEnv 1000 true false true None in
  let s := run initial [EvSelectDevices "mic" "cam" env; EvOpen 1000;
                        EvMedia None] in
  frame_timers s = [mkTimer 1 FrameInterval 1000]
  /\ frame_timers (cleanup s) = []
  /\ frame_timers (disconnect s) = []
  /\ frame_timers (onclose (connectionAttemptIdRef s) s) = [].
Proof.
  intros env s. split; [vm_compute; reflexivity|].
  exact (teardown_stops_sampler s
           (reachable_timers_wf sample_decode sample_decodeAudioData s
              (reachable_run _ _ initial _ (reachable_initial _ _)))).
Defined.

Lemma media_failure_disconnects_witness :
  let env := mkConnectEnv 1000 true false true None in
  let s := run initial [EvSelectDevices "mic" "cam" env; EvOpen 1000] in
  let s' := onopen_resume (Some "NotAllowedError") s in
  isConnected s = true
  /\ isConnected s' = false
  /\ isUserDisconnectingRef s' = true
  /\ reconnect_timers (run s' [EvClose 1000; EvError 1000]) = [].
Proof.
  intros env s s'.
  destruct (media_failure_disconnects
              sample_decode sample_decodeAudioData s "NotAllowedError"
              (reachable_timers_wf sample_decode sample_decodeAudioData s
                 (reachable_run _ _ initial _ (reachable_initial _ _))))
    as [_ [Hu [Hc [_ [_ [_ [_ Hrun]]]]]]].
  split; [vm_compute; reflexivity|]. split; [exact Hc|]. split; [exact Hu|].
  exact (Hrun [EvClose 1000; EvError 1000] eq_refl).
Defined.

Lemma undecodable_segment_plays_nothing_witness :
  let reject := fun _ : string => @None Z in
  let s' := App.playAudioResponse sample_decode reject "abcd" 50 initial in
  sourcesRef s' = [] /\ nextSourceId s' = 0%nat /\ nextStartTimeRef s' = 50.
Proof.
  intros reject s'.
  destruct (undecodable_segment_plays_nothing sample_decode reject
              initial "abcd" 50 eq_refl) as [Hs [Hn [_ [_ Hc]]]].
  split; [exact Hs|]. split; [exact Hn | exact Hc].
Defined.



End RunsMore.
